(** * VidText: the text-analysis core of [app.py]

    A shallow embedding of the tokenizer ([clean_tokens]), the keyword ranker
    ([keyword_top_n]), the sentence segmenter ([split_sentences]), the
    sentence scorer ([score_sentences]) and the summary selector
    ([extract_summary_bullets]), followed by the properties of each.

    A Python [str] is a sequence of Unicode code points: a string is a list
    of code points, a code point is an [N].  Python integers supplied by a
    caller ([n], [k], [min_len], [max_len]) are [Z]; lengths and occurrence
    counts, which are never negative, are [nat]. *)

From Stdlib Require Import Ascii String.
From Stdlib Require DecimalString DecimalZ.
From Stdlib Require Import List NArith ZArith QArith Bool Lia Permutation Sorted.
Import ListNotations.
Local Close Scope Q_scope.

Set Implicit Arguments.

(** ** Code points and strings *)

Definition char := N.
Definition str := list char.

(** An ASCII literal as a Python string. *)
Definition lit (s : string) : str := map N_of_ascii (list_ascii_of_string s).

Fixpoint str_eqb (a b : str) : bool :=
  match a, b with
  | [], [] => true
  | x :: a', y :: b' => N.eqb x y && str_eqb a' b'
  | _, _ => false
  end.

Local Open Scope N_scope.

Definition in_range (lo hi c : char) : bool := N.leb lo c && N.leb c hi.

(** [Py_UNICODE_ISSPACE]: the whitespace test shared by [\s] in [re] (on a
    [str] pattern), by [str.split()] and by [str.strip()]. *)
Definition isspace (c : char) : bool :=
  in_range 0x09 0x0D c || in_range 0x1C 0x20 c
  || N.eqb c 0x85 || N.eqb c 0xA0 || N.eqb c 0x1680
  || in_range 0x2000 0x200A c
  || N.eqb c 0x2028 || N.eqb c 0x2029 || N.eqb c 0x202F
  || N.eqb c 0x205F || N.eqb c 0x3000.

Definition is_upper (c : char) : bool := in_range 0x41 0x5A c.
Definition is_lower (c : char) : bool := in_range 0x61 0x7A c.
Definition is_ascii_digit (c : char) : bool := in_range 0x30 0x39 c.
Definition is_ascii (c : char) : bool := N.ltb c 0x80.

Definition space : char := 0x20.
Definition apostrophe : char := 0x27.
Definition is_apostrophe (c : char) : bool := N.eqb c apostrophe.

(** The sentence terminators of the class [[\.\!\?]]. *)
Definition is_terminator (c : char) : bool :=
  N.eqb c 0x2E || N.eqb c 0x21 || N.eqb c 0x3F.

Local Close Scope N_scope.

Definition is_empty (s : str) : bool :=
  match s with [] => true | _ => false end.

Definition is_nil (T : Type) (l : list T) : bool :=
  match l with [] => true | _ => false end.

(** *** [str.strip] *)

Fixpoint lstrip (p : char -> bool) (s : str) : str :=
  match s with
  | [] => []
  | c :: s' => if p c then lstrip p s' else s
  end.

Definition rstrip (p : char -> bool) (s : str) : str :=
  rev (lstrip p (rev s)).

(** [s.strip(chars)] with [p] the membership test of [chars]. *)
Definition strip_chars (p : char -> bool) (s : str) : str :=
  rstrip p (lstrip p s).

(** [s.strip()] *)
Definition strip (s : str) : str := strip_chars isspace s.

(** *** [str.split()] with no argument

    The scan keeps the word being read in [cur] (most recent code point
    first); a whitespace code point closes it.  Runs of whitespace and
    whitespace at either end produce no empty piece. *)
Fixpoint split_from (cur : str) (s : str) : list str :=
  match s with
  | [] => if is_empty cur then [] else [rev cur]
  | c :: s' =>
      if isspace c
      then (if is_empty cur then split_from [] s'
            else rev cur :: split_from [] s')
      else split_from (c :: cur) s'
  end.

Definition split (s : str) : list str := split_from [] s.

(** *** [sep.join(parts)] *)
Fixpoint join (sep : str) (parts : list str) : str :=
  match parts with
  | [] => []
  | [p] => p
  | p :: rest => p ++ sep ++ join sep rest
  end.

(** *** The Unicode tables outside ASCII

    [str.lower] and [str.isdigit] consult the Unicode character database.
    Their ASCII part is written out below; the rest of the database is a
    parameter of the development. *)
Record unicode_tables : Type := {
  (** [s.lower()] for an [s] that has a code point outside ASCII *)
  unicode_lower : str -> str;
  (** the per-code-point test of [str.isdigit] outside ASCII *)
  unicode_isdigit : char -> bool
}.

Local Open Scope N_scope.

Definition ascii_lower (c : char) : char :=
  if is_upper c then c + 0x20 else c.

Section Tokenizer.

Variable U : unicode_tables.

(** [s.lower()] *)
Definition lower (s : str) : str :=
  if forallb is_ascii s then map ascii_lower s else unicode_lower U s.

Definition isdigit_char (c : char) : bool :=
  if is_ascii c then is_ascii_digit c else unicode_isdigit U c.

(** [s.isdigit()]: at least one code point, and all of them digits. *)
Definition isdigit (s : str) : bool :=
  negb (is_empty s) && forallb isdigit_char s.

(** ** Stopwords *)

Definition STOPWORDS_source : str :=
  [0x0A] ++
  lit "a an and the this that those these to of for from on in with as at by it its be is are was were am been being do does did doing have has had having i you he she they we him her them us our your their my mine yours his hers theirs myself yourself themselves itself themselves ourselves"
  ++ [0x0A] ++
  lit "about above after again against all also among around because before below between both but can cannot could did do does doing down during each few further here how if into more most no nor not only other out over own same should so some such than then there through too under until up very what when where which who whom why will would"
  ++ [0x0A].

(** [STOPWORDS] is the set of the words of the triple-quoted text, split
    on whitespace; membership is all the set is used for, so the set is the
    list of its members. *)
Definition STOPWORDS : list str := Eval vm_compute in split STOPWORDS_source.

Definition in_stopwords (w : str) : bool := existsb (str_eqb w) STOPWORDS.

(** ** Tokenizer *)

(** One step of [re.sub(r"[^A-Za-z0-9\s']", " ", text)]: the pattern matches
    exactly one code point, so the substitution acts code point by code
    point. *)
Definition in_token_class (c : char) : bool :=
  is_upper c || is_lower c || is_ascii_digit c || isspace c || is_apostrophe c.

Definition sanitize_char (c : char) : char :=
  if in_token_class c then c else space.

Definition sanitize (text : str) : str := map sanitize_char text.

(** [w.lower().strip("'")] *)
Definition normalize (w : str) : str := strip_chars is_apostrophe (lower w).

(** [w and w not in STOPWORDS and not w.isdigit()] *)
Definition keep_token (w : str) : bool :=
  negb (is_empty w) && negb (in_stopwords w) && negb (isdigit w).

Definition clean_tokens (text : str) : list str :=
  let text := sanitize text in
  let words := map normalize (split text) in
  filter keep_token words.

End Tokenizer.

Local Close Scope N_scope.

(** ** Keyword ranker *)

(** [Counter(tokens)]: a dict, so its items come in the order in which the
    keys were first inserted.  The items are kept as an association list in
    that order. *)
Fixpoint counter_incr (t : str) (c : list (str * nat)) : list (str * nat) :=
  match c with
  | [] => [(t, 1)]
  | (k, v) :: c' =>
      if str_eqb k t then (k, S v) :: c' else (k, v) :: counter_incr t c'
  end.

Definition Counter (tokens : list str) : list (str * nat) :=
  fold_left (fun c t => counter_incr t c) tokens [].

(** [freqs[t]]: a key that is absent reads as 0. *)
Fixpoint counter_get (c : list (str * nat)) (t : str) : nat :=
  match c with
  | [] => 0
  | (k, v) :: c' => if str_eqb k t then v else counter_get c' t
  end.

(** [sorted(items, key=key, reverse=True)] and [items.sort(key=key,
    reverse=True)].  Python's sort is stable, also under [reverse=True], and
    only compares keys with [<]: wherever [<] is a strict weak order the
    outcome is the list below, in which an item is placed before the first
    item whose key is not greater than its own. *)
Section Sorting.

Variables (A K : Type) (lt : K -> K -> bool) (key : A -> K).

Fixpoint insert_desc (x : A) (l : list A) : list A :=
  match l with
  | [] => [x]
  | y :: l' => if lt (key x) (key y) then y :: insert_desc x l' else x :: l
  end.

Definition sort_desc (l : list A) : list A := fold_right insert_desc [] l.

End Sorting.

(** [c.most_common(n)] is [heapq.nlargest(n, c.items(), key=itemgetter(1))],
    that is [sorted(c.items(), key=itemgetter(1), reverse=True)[:n]] for
    [n >= 0], and the empty list for a negative [n]. *)
Definition most_common (n : Z) (c : list (str * nat)) : list (str * nat) :=
  if (n <? 0)%Z then []
  else firstn (Z.to_nat n) (sort_desc Nat.ltb (@snd str nat) c).

(** ** Sentence segmenter *)

Definition cons_head (c : char) (parts : list str) : list str :=
  match parts with
  | [] => [[c]]
  | p :: ps => (c :: p) :: ps
  end.

(** [re.split(r'(?<=[\.\!\?])\s+', text)].  A match starts at a whitespace
    code point that directly follows a terminator and takes the whole run of
    whitespace; the pieces are what lies between the matches, and there is
    always a last piece (possibly empty).  [after_term] says that the code
    point just read is a terminator, [in_gap] that the scan is inside a
    match. *)
Fixpoint re_split_from (in_gap after_term : bool) (text : str) : list str :=
  match text with
  | [] => [[]]
  | c :: rest =>
      if isspace c then
        if in_gap then re_split_from true false rest
        else if after_term then [] :: re_split_from true false rest
        else cons_head c (re_split_from false false rest)
      else cons_head c (re_split_from false (is_terminator c) rest)
  end.

Definition re_split (text : str) : list str := re_split_from false false text.

Definition split_sentences (text : str) : list str :=
  let parts := re_split text in
  map strip (filter (fun p => negb (is_empty (strip p))) parts).

(** ** Sentence scorer *)

(** The double-precision operations of the score.  [x ** 0.8] is the C
    library's [pow], which is not part of the program: the arithmetic is a
    parameter, and so is the order [<] the sort compares scores with. *)
Record float_ops : Type := {
  float : Type;
  (** the conversion applied to an [int] operand of [/] and [**] *)
  float_of_int : nat -> float;
  float_pow : float -> float -> float;
  float_div : float -> float -> float;
  float_lt : float -> float -> bool;
  (** the literal [0.8] *)
  float_0_8 : float
}.

Section Summarizer.

Variable U : unicode_tables.
Variable F : float_ops.

Definition keyword_top_n (text : str) (n : Z) : list (str * nat) :=
  most_common n (Counter (clean_tokens U text)).

(** [sum(freqs[t] for t in toks) / (len(toks) ** 0.8)] *)
Definition sentence_score (freqs : list (str * nat)) (toks : list str)
  : float F :=
  float_div F
    (float_of_int F (list_sum (map (counter_get freqs) toks)))
    (float_pow F (float_of_int F (length toks)) (float_0_8 F)).

(** The [for s in sentences] loop: [continue] on a sentence without tokens,
    [scored.append((s, score))] otherwise. *)
Fixpoint score_loop (freqs : list (str * nat)) (sentences : list str)
  : list (str * float F) :=
  match sentences with
  | [] => []
  | s :: rest =>
      let toks := clean_tokens U s in
      match toks with
      | [] => score_loop freqs rest
      | _ => (s, sentence_score freqs toks) :: score_loop freqs rest
      end
  end.

Definition score_sentences (sentences : list str) : list (str * float F) :=
  let all_words := clean_tokens U (join [space] sentences) in
  match all_words with
  | [] => []
  | _ =>
      let freqs := Counter all_words in
      let scored := score_loop freqs sentences in
      sort_desc (float_lt F) (@snd str (float F)) scored
  end.

(** ** Summary selector *)

(** The marker ["• "]: U+2022 and a space. *)
Definition bullet_marker : str := [0x2022%N; space].

Definition add_bullet (s : str) : str := bullet_marker ++ s.

(** [s[:40].lower()] *)
Definition signature (s : str) : str := lower U (firstn 40 s).

(** [l[:k]]: a negative [k] counts from the end. *)
Definition slice_to (T : Type) (k : Z) (l : list T) : list T :=
  if (k <? 0)%Z then firstn (length l - Z.to_nat (- k)) l
  else firstn (Z.to_nat k) l.

(** The [for s, _ in ranked] loop, with the state [(bullets, used)] it
    updates; [break] returns the bullets at once. *)
Fixpoint select_loop (k min_len max_len : Z) (ranked : list (str * float F))
    (bullets : list str) (used : list str) : list str :=
  match ranked with
  | [] => bullets
  | (s, _) :: rest =>
      if (Z.of_nat (length s) <? min_len)%Z || (max_len <? Z.of_nat (length s))%Z
      then select_loop k min_len max_len rest bullets used
      else
        let sig := signature s in
        if existsb (str_eqb sig) used
        then select_loop k min_len max_len rest bullets used
        else
          let bullets := bullets ++ [add_bullet s] in
          let used := sig :: used in
          if (k <=? Z.of_nat (length bullets))%Z then bullets
          else select_loop k min_len max_len rest bullets used
  end.

Definition extract_summary_bullets (text : str) (k min_len max_len : Z)
  : list str :=
  let sents := split_sentences text in
  let ranked := score_sentences sents in
  let bullets := select_loop k min_len max_len ranked [] [] in
  if is_nil bullets && negb (is_nil sents)
  then map add_bullet (slice_to k sents)
  else bullets.

End Summarizer.

(** ** Duration display *)

(** [f"{z:d}"]: the decimal digits of [z], behind a minus sign when [z] is
    negative. *)
Definition format_d (z : Z) : str :=
  lit (DecimalString.NilEmpty.string_of_int (Z.to_int z)).

(** [f"{z:02d}"]: padded with a zero to two characters.  A negative number
    already has two, its sign and a digit. *)
Definition format_02d (z : Z) : str :=
  let d := format_d z in
  if Nat.ltb (length d) 2 then lit "0" ++ d else d.

Definition colon : char := 0x3A%N.

(** Python's [//] and [%] round towards minus infinity, as [Z.div] and
    [Z.modulo] do. *)
Definition seconds_to_hms (sec : Z) : str :=
  let h := (sec / 3600)%Z in
  let m := ((sec mod 3600) / 60)%Z in
  let s := (sec mod 60)%Z in
  if (h =? 0)%Z
  then format_d m ++ [colon] ++ format_02d s
  else format_d h ++ [colon] ++ format_02d m ++ [colon] ++ format_02d s.

(** ** Video id *)

(** What a function returns or raises. *)
Inductive outcome (T : Type) : Type :=
  | Returns (value : T)
  | ValueError (message : str).

Arguments Returns {T} value.
Arguments ValueError {T} message.

(** The class [[A-Za-z0-9_-]]. *)
Definition is_id_char (c : char) : bool :=
  is_upper c || is_lower c || is_ascii_digit c
  || N.eqb c 0x5F || N.eqb c 0x2D.

(** [starts_with p s]: what follows [p] at the start of [s]. *)
Fixpoint starts_with (p s : str) : option str :=
  match p with
  | [] => Some s
  | c :: p' =>
      match s with
      | [] => None
      | d :: s' => if N.eqb c d then starts_with p' s' else None
      end
  end.

(** A match of [marker([A-Za-z0-9_-]{11})] at the start of [s]: its group
    1. *)
Definition match_id_at (marker s : str) : option str :=
  match starts_with marker s with
  | None => None
  | Some rest =>
      let id := firstn 11 rest in
      if Nat.eqb (length id) 11 && forallb is_id_char id
      then Some id else None
  end.

(** [re.search]: the match at the leftmost position that has one. *)
Fixpoint re_search_id (marker s : str) : option str :=
  match match_id_at marker s with
  | Some id => Some id
  | None =>
      match s with
      | [] => None
      | _ :: s' => re_search_id marker s'
      end
  end.

(** The fixed text of the three patterns; [\.] is a plain dot. *)
Definition id_markers : list str :=
  [lit "v="; lit "youtu.be/"; lit "youtube.com/embed/"].

(** The [for p in patterns] loop with its early [return]. *)
Fixpoint first_id (markers : list str) (url : str) : option str :=
  match markers with
  | [] => None
  | p :: rest =>
      match re_search_id p url with
      | Some id => Some id
      | None => first_id rest url
      end
  end.

Definition get_video_id (youtube_url : str) : outcome str :=
  let youtube_url := strip youtube_url in
  match first_id id_markers youtube_url with
  | Some id => Returns id
  | None =>
      ValueError (lit "Invalid YouTube URL. Could not extract a video id.")
  end.

(** ** Transcript text *)

(** A segment of [fetched.to_raw_data()]: a dict, of which only the key
    ["text"] is read.  [seg_text] is [seg.get("text")], [None] when the key
    is absent. *)
Record segment : Type := { seg_text : option str }.

Definition newline : char := 0x0A%N.

(** The texts the generator yields: [seg["text"] for seg in data if
    seg.get("text")]; an absent and an empty text are both false. *)
Fixpoint segment_texts (data : list segment) : list str :=
  match data with
  | [] => []
  | seg :: rest =>
      match seg_text seg with
      | Some (c :: t) => (c :: t) :: segment_texts rest
      | _ => segment_texts rest
      end
  end.

Definition fetched_to_plain_text (data : list segment) : str :=
  join [newline] (segment_texts data).

(** ** The tokenizer as the specification words it

    Four steps: (1) every code point outside [[A-Za-z0-9\s']] becomes a
    space; (2) the text is split on runs of whitespace; (3) each piece is
    lowercased and loses its leading and trailing apostrophes; (4) a piece
    is dropped when it is empty, made of digits only, or a stopword.

    The steps are written here on their own, with none of the functions of
    the tokenizer above: the class, the whitespace, the lowercasing and the
    two trims are given anew, so that the comparison with [clean_tokens]
    has something to say. *)

(** The whitespace code points, one by one. *)
Definition spec_whitespace_points : list char :=
  [0x09; 0x0A; 0x0B; 0x0C; 0x0D; 0x1C; 0x1D; 0x1E; 0x1F; 0x20; 0x85; 0xA0;
   0x1680; 0x2000; 0x2001; 0x2002; 0x2003; 0x2004; 0x2005; 0x2006; 0x2007;
   0x2008; 0x2009; 0x200A; 0x2028; 0x2029; 0x202F; 0x205F; 0x3000]%N.

Definition spec_whitespace (c : char) : bool :=
  existsb (N.eqb c) spec_whitespace_points.

Definition spec_uppercase_letter (c : char) : bool :=
  (N.leb 0x41 c && N.leb c 0x5A)%N.

Definition spec_lowercase_letter (c : char) : bool :=
  (N.leb 0x61 c && N.leb c 0x7A)%N.

Definition spec_digit (c : char) : bool :=
  (N.leb 0x30 c && N.leb c 0x39)%N.

(** Step 1: the class [[A-Za-z0-9\s']], and the replacement by a space. *)
Definition spec_in_class (c : char) : bool :=
  spec_uppercase_letter c || spec_lowercase_letter c || spec_digit c
  || spec_whitespace c || N.eqb c 0x27.

Definition spec_replace (c : char) : char :=
  if spec_in_class c then c else 0x20%N.

(** Step 2: splitting on runs of whitespace, as [re.split(r'\s+', s)]
    does: a run at either end of the text leaves an empty piece there. *)
Fixpoint spec_split_runs (in_run : bool) (s : str) : list str :=
  match s with
  | [] => [[]]
  | c :: s' =>
      if spec_whitespace c
      then (if in_run then spec_split_runs true s'
            else [] :: spec_split_runs true s')
      else match spec_split_runs false s' with
           | [] => [[c]]
           | p :: ps => (c :: p) :: ps
           end
  end.

(** Step 3.  The pieces hold ASCII letters, digits and apostrophes only:
    lowercasing moves the letters [A]..[Z] to [a]..[z]. *)
Definition spec_lowercase (w : str) : str :=
  map (fun c => if spec_uppercase_letter c then (c + 0x20)%N else c) w.

Fixpoint drop_leading_apostrophes (w : str) : str :=
  match w with
  | [] => []
  | c :: w' => if N.eqb c 0x27 then drop_leading_apostrophes w' else w
  end.

Fixpoint drop_trailing_apostrophes (w : str) : str :=
  match w with
  | [] => []
  | c :: w' =>
      match drop_trailing_apostrophes w' with
      | [] => if N.eqb c 0x27 then [] else [c]
      | r => c :: r
      end
  end.

(** Step 4. *)
Definition spec_is_stopword (w : str) : bool :=
  if in_dec (list_eq_dec N.eq_dec) w STOPWORDS then true else false.

Definition spec_dropped (w : str) : bool :=
  match w with
  | [] => true
  | _ => forallb spec_digit w || spec_is_stopword w
  end.

Definition tokenize_spec (text : str) : list str :=
  let replaced := map spec_replace text in
  let pieces := spec_split_runs false replaced in
  let stripped :=
    map (fun w =>
           drop_trailing_apostrophes
             (drop_leading_apostrophes (spec_lowercase w)))
      pieces in
  filter (fun w => negb (spec_dropped w)) stripped.

(** The split on runs with the whitespace test of the code, and the filter
    of step 4 with its digit and stopword tests: the two forms the proofs
    pass through. *)
Fixpoint split_on_runs (in_run : bool) (s : str) : list str :=
  match s with
  | [] => [[]]
  | c :: s' =>
      if isspace c
      then (if in_run then split_on_runs true s'
            else [] :: split_on_runs true s')
      else cons_head c (split_on_runs false s')
  end.

Definition dropped_by_spec (w : str) : bool :=
  is_empty w || forallb is_ascii_digit w || in_stopwords w.

(** The position at which a token is first seen. *)
Fixpoint first_index (t : str) (l : list str) : nat :=
  match l with
  | [] => 0
  | x :: l' => if str_eqb x t then 0 else S (first_index t l')
  end.

(** ** Instances used to run the functions

    [ascii_tables] leaves a string with a code point outside ASCII as it
    is.  [rational_floats] computes with exact rationals and takes [x ** y]
    to be [x]: it serves to run the scorer on concrete inputs, nothing
    more. *)

Definition ascii_tables : unicode_tables :=
  {| unicode_lower := fun s => s; unicode_isdigit := fun _ => false |}.

Definition rational_floats : float_ops :=
  {| float := Q;
     float_of_int := fun n => inject_Z (Z.of_nat n);
     float_pow := fun x _ => x;
     float_div := Qdiv;
     float_lt := fun a b => negb (Qle_bool b a);
     float_0_8 := Qmake 4 5 |}.

Unset Implicit Arguments.

(** ** Vocabulary of the properties *)

(** A piece of the split on runs, with the word being read put in front. *)
Definition prepend (cur : str) (parts : list str) : list str :=
  match parts with
  | [] => [rev cur]
  | p :: ps => (rev cur ++ p) :: ps
  end.

Definition nonempty (s : str) : bool := negb (is_empty s).

Definition ascii_str (w : str) : Prop := Forall (fun c => is_ascii c = true) w.

(** [ranks lt key before a b]: [a] may stand before [b] in the list sorted
    by descending [key], because its key is not smaller, and it is greater
    or [a] came first. *)
Definition ranks {A K : Type} (lt : K -> K -> bool) (key : A -> K)
    (before : A -> A -> Prop) (a b : A) : Prop :=
  lt (key a) (key b) = false /\ (lt (key b) (key a) = true \/ before a b).

(** Two keys are tied when neither is less than the other. *)
Definition tied {K : Type} (lt : K -> K -> bool) (u v : K) : bool :=
  negb (lt u v) && negb (lt v u).

Definition str_eq_dec : forall a b : str, {a = b} + {a <> b} :=
  list_eq_dec N.eq_dec.

(** The number of occurrences of [t] in [l]. *)
Definition occurrences (l : list str) (t : str) : nat :=
  count_occ str_eq_dec l t.

(** [seen_before l a b]: the first occurrence of [a] in [l] comes before
    that of [b]. *)
Definition seen_before (l : list str) (a b : str) : Prop :=
  first_index a l < first_index b l.

(** How [most_common] ranks two items: by count, then by first sight. *)
Definition outranks (toks : list str) (a b : str * nat) : Prop :=
  snd b < snd a \/ (snd a = snd b /\ seen_before toks (fst a) (fst b)).

(** The code points of a text that are not whitespace, in order. *)
Definition content (s : str) : str := filter (fun c => negb (isspace c)) s.

(** No terminator of [text] is directly followed by whitespace. *)
Fixpoint term_then_space (text : str) : bool :=
  match text with
  | [] => false
  | c :: rest =>
      (is_terminator c && match rest with d :: _ => isspace d | [] => false end)
      || term_then_space rest
  end.

Definition head_is_space (text : str) : bool :=
  match text with d :: _ => isspace d | [] => false end.

(** What the scoring loop appends: the sentences that have tokens, in
    their order, each with its score. *)
Definition has_tokens (U : unicode_tables) (s : str) : bool :=
  negb (is_nil (clean_tokens U s)).

Definition scored_sentences (U : unicode_tables) (F : float_ops)
    (freqs : list (str * nat)) (sentences : list str) : list (str * float F) :=
  map (fun s => (s, sentence_score F freqs (clean_tokens U s)))
    (filter (has_tokens U) sentences).

(** The length filter of the walk. *)
Definition length_ok (min_len max_len : Z) (s : str) : Prop :=
  (min_len <= Z.of_nat (length s) <= max_len)%Z.

Definition too_short_or_long (min_len max_len : Z) (s : str) : bool :=
  (Z.of_nat (length s) <? min_len)%Z || (max_len <? Z.of_nat (length s))%Z.

(** The sentence a bullet was made of. *)
Definition bullet_sentence (b : str) : str := skipn (length bullet_marker) b.

(** A string of code points below 256 as a Rocq string, to read decimal
    digits back. *)
Definition as_string (s : str) : string :=
  string_of_list_ascii (map ascii_of_N s).

(** The integer written in decimal in [s]. *)
Definition read_d (s : str) : option Z :=
  option_map Z.of_int (DecimalString.NilEmpty.int_of_string (as_string s)).

(** The fields of [s] between its colons. *)
Fixpoint fields (s : str) : list str :=
  match s with
  | [] => [[]]
  | c :: s' =>
      if N.eqb c colon then [] :: fields s' else cons_head c (fields s')
  end.

(** Reading a duration back: [m:ss] or [h:mm:ss], in seconds. *)
Definition parse_hms (s : str) : option Z :=
  match map read_d (fields s) with
  | [Some m; Some sec] => Some (m * 60 + sec)%Z
  | [Some h; Some m; Some sec] => Some (h * 3600 + m * 60 + sec)%Z
  | _ => None
  end.

(** An id as the patterns take it: 11 code points of [[A-Za-z0-9_-]]. *)
Definition valid_id (id : str) : Prop :=
  length id = 11 /\ forallb is_id_char id = true.

(** [url] holds [marker] directly followed by an id. *)
Definition has_id_after (marker url : str) : Prop :=
  exists pre id post, url = pre ++ marker ++ id ++ post /\ valid_id id.

(** The alphabet of a token: lowercase letters, digits, apostrophes. *)
Definition token_char (c : char) : bool :=
  is_lower c || is_ascii_digit c || is_apostrophe c.

(** A token in normal form: not empty, over the token alphabet, without an
    apostrophe at either end. *)
Definition token_shaped (t : str) : Prop :=
  t <> []
  /\ forallb token_char t = true
  /\ is_apostrophe (hd space t) = false
  /\ is_apostrophe (last t space) = false.

Definition ends_with_terminator (s : str) : Prop :=
  is_terminator (last s space) = true.

(** [mismatch p t]: [t] differs from [p] at a position both have, so
    that [p] starts no text that starts with [t]. *)
Fixpoint mismatch (p t : str) : bool :=
  match p, t with
  | c :: p', d :: t' => negb (N.eqb c d) || mismatch p' t'
  | _, _ => false
  end.

(** [clear_of marker pre]: [marker] starts at no position of [pre],
    whatever follows [pre]. *)
Fixpoint clear_of (marker pre : str) : bool :=
  match pre with
  | [] => true
  | _ :: pre' => mismatch marker pre && clear_of marker pre'
  end.

Definition equals_sign : char := 0x3D%N.
Definition slash : char := 0x2F%N.

Definition not_colon (c : char) : Prop := N.eqb c colon = false.

(** The text of a segment as the tokenizer sees it: nothing when the key is
    absent. *)
Definition text_or_empty (seg : segment) : str :=
  match seg_text seg with Some t => t | None => [] end.

(** What a piece of the sanitized text is made of. *)
Definition piece_char (c : char) : bool :=
  is_upper c || is_lower c || is_ascii_digit c || is_apostrophe c.

(** The first ranked sentence that passes the length filter. *)
Definition first_in_bounds (F : float_ops) (min_len max_len : Z)
    (ranked : list (str * float F)) : option (str * float F) :=
  find (fun p => negb (too_short_or_long min_len max_len (fst p))) ranked.

(** [closed a l]: the pieces of [l], which a match follows, end with a
    terminator; the first of them may be empty when the code point before
    it was one ([a]). *)
Definition closed (a : bool) (l : list str) : Prop :=
  match l with
  | [] => True
  | p :: l' =>
      (p = [] -> a = true)
      /\ (p <> [] -> ends_with_terminator p)
      /\ Forall ends_with_terminator l'
  end.

(** ** Inputs of the examples *)

Definition keywords_text : str := lit "b a1 c b c a1 d c x y".

Definition plain_text : str := lit "  no terminal punctuation here ".

Definition cat_sentences : list str :=
  [lit "The cat sat on the mat."; lit "The cat also sat on the rug.";
   lit "Birds fly."].

Definition fox_text : str :=
  lit "The quick brown fox jumps over the lazy dog today. The quick brown fox jumps over the lazy dog today. A second long sentence about the quick brown fox appears here! Short one.".

Definition fox_sentence : str :=
  lit "The quick brown fox jumps over the lazy dog today.".

Definition short_text : str := lit "Short. Also short.".

Definition stopwords_text : str := lit "the and.".

Definition watch_url : str :=
  lit "  https://www.youtube.com/watch?v=dQw4w9WgXcQ&t=3 ".

Definition video_id : str := lit "dQw4w9WgXcQ".

Definition greeting_text : str := lit " Hi.  There! yes".

(** * Properties *)

(** ** Strings *)

Lemma str_eqb_eq (a b : str) : str_eqb a b = true <-> a = b.
Proof.
  revert b; induction a as [|x a IH]; intros [|y b]; simpl; split;
    try congruence; try reflexivity.
  - intros H. apply andb_true_iff in H as [Hx Hab].
    apply N.eqb_eq in Hx. apply IH in Hab. congruence.
  - intros H. injection H as -> ->. rewrite N.eqb_refl. simpl. now apply IH.
Qed.

Lemma str_eqb_refl (a : str) : str_eqb a a = true.
Proof. now apply str_eqb_eq. Qed.

Lemma str_eqb_neq (a b : str) : str_eqb a b = false <-> a <> b.
Proof.
  split.
  - intros H E. apply str_eqb_eq in E. congruence.
  - intros H. destruct (str_eqb a b) eqn:E; [|reflexivity].
    apply str_eqb_eq in E. contradiction.
Qed.

Lemma str_eqb_sym (a b : str) : str_eqb a b = str_eqb b a.
Proof.
  destruct (str_eqb a b) eqn:E.
  - apply str_eqb_eq in E. subst. symmetry. apply str_eqb_refl.
  - symmetry. apply str_eqb_neq. apply str_eqb_neq in E. congruence.
Qed.

Lemma mem_str_In (w : str) (l : list str) :
  existsb (str_eqb w) l = true <-> In w l.
Proof.
  rewrite existsb_exists. split.
  - intros (x & Hx & E). apply str_eqb_eq in E. now subst.
  - intros H. exists w. split; [assumption | apply str_eqb_refl].
Qed.

Lemma in_stopwords_In (w : str) : in_stopwords w = true <-> In w STOPWORDS.
Proof. apply mem_str_In. Qed.

Lemma is_empty_true (s : str) : is_empty s = true <-> s = [].
Proof. destruct s; simpl; split; congruence. Qed.

Lemma is_empty_app (a b : str) :
  is_empty (a ++ b) = is_empty a && is_empty b.
Proof. now destruct a. Qed.

Lemma is_empty_rev (a : str) : is_empty (rev a) = is_empty a.
Proof.
  destruct a as [|x a]; [reflexivity|]. simpl.
  rewrite is_empty_app. simpl. now rewrite andb_false_r.
Qed.

Lemma lstrip_Forall (P : char -> Prop) (p : char -> bool) (s : str) :
  Forall P s -> Forall P (lstrip p s).
Proof.
  induction 1 as [|c s Hc Hs IH]; simpl; [constructor|].
  destruct (p c); [assumption | now constructor].
Qed.

Lemma strip_chars_Forall (P : char -> Prop) (p : char -> bool) (s : str) :
  Forall P s -> Forall P (strip_chars p s).
Proof.
  intros H. unfold strip_chars, rstrip.
  apply Forall_rev, lstrip_Forall, Forall_rev, lstrip_Forall, H.
Qed.

Lemma strip_chars_nil (p : char -> bool) : strip_chars p [] = [].
Proof. reflexivity. Qed.

(** ** [split] *)

Lemma cons_head_Forall (P : char -> Prop) (c : char) (parts : list str) :
  P c -> Forall (Forall P) parts -> Forall (Forall P) (cons_head c parts).
Proof.
  intros Hc [|p ps Hp Hps]; simpl; repeat constructor; assumption.
Qed.

Lemma split_on_runs_chars (P : char -> Prop) (s : str) :
  (forall c, In c s -> isspace c = false -> P c) ->
  forall r, Forall (Forall P) (split_on_runs r s).
Proof.
  induction s as [|c s IH]; intros H r; simpl.
  - repeat constructor.
  - assert (IH' := IH (fun d Hd => H d (or_intror Hd))).
    destruct (isspace c) eqn:Ec.
    + destruct r; [apply IH' | constructor; [constructor | apply IH']].
    + apply cons_head_Forall; [apply H; simpl; auto | apply IH'].
Qed.

Lemma prepend_cons_head (c : char) (cur : str) (parts : list str) :
  prepend (c :: cur) parts = prepend cur (cons_head c parts).
Proof.
  destruct parts; simpl; [reflexivity | now rewrite <- app_assoc].
Qed.

(** [str.split()] yields the non-empty pieces of the split on runs. *)
Lemma split_from_runs (s : str) :
  (forall cur,
     split_from cur s = filter nonempty (prepend cur (split_on_runs false s)))
  /\ split_from [] s = filter nonempty (split_on_runs true s).
Proof.
  induction s as [|c s [IHa IHb]]; split; intros; simpl.
  - unfold nonempty. rewrite app_nil_r, is_empty_rev. now destruct cur.
  - reflexivity.
  - destruct (isspace c).
    + simpl. unfold nonempty at 1. rewrite app_nil_r, is_empty_rev, IHb.
      now destruct (is_empty cur).
    + now rewrite IHa, prepend_cons_head.
  - destruct (isspace c); [apply IHb|].
    rewrite IHa. now destruct (split_on_runs false s).
Qed.

Lemma split_on_runs_not_nil (r : bool) (s : str) : split_on_runs r s <> [].
Proof.
  revert r; induction s as [|c s IH]; intros r; simpl; [discriminate|].
  destruct (isspace c).
  - destruct r; [apply IH | discriminate].
  - specialize (IH false). destruct (split_on_runs false s); simpl; congruence.
Qed.

Lemma split_filter_runs (s : str) :
  split s = filter nonempty (split_on_runs false s).
Proof.
  unfold split. rewrite (proj1 (split_from_runs s)).
  pose proof (split_on_runs_not_nil false s).
  now destruct (split_on_runs false s).
Qed.

Lemma split_from_app_space (a b : str) (c : char) :
  isspace c = true ->
  forall cur, split_from cur (a ++ c :: b) = split_from cur a ++ split_from [] b.
Proof.
  intros Hc. induction a as [|x a IH]; intros cur; simpl.
  - rewrite Hc. now destruct (is_empty cur).
  - destruct (isspace x); [|apply IH].
    destruct (is_empty cur); simpl; now rewrite IH.
Qed.

Lemma isspace_space : isspace space = true.
Proof. reflexivity. Qed.

Lemma split_join (l : list str) :
  split (join [space] l) = concat (map split l).
Proof.
  induction l as [|p [|q l] IH]; simpl.
  - reflexivity.
  - now rewrite app_nil_r.
  - unfold split at 1. rewrite split_from_app_space by apply isspace_space.
    f_equal. apply IH.
Qed.

(** ** Tokenizer *)

Ltac char_arith :=
  unfold in_token_class, is_upper, is_lower, is_ascii_digit, is_apostrophe,
    is_terminator, isspace, is_ascii, in_range, ascii_lower, apostrophe,
    space in *;
  repeat match goal with
    | H : _ || _ = true |- _ => apply orb_true_iff in H; destruct H
    | H : _ && _ = true |- _ => apply andb_true_iff in H; destruct H
    | H : _ || _ = false |- _ => apply orb_false_iff in H; destruct H
    | H : N.leb _ _ = true |- _ => apply N.leb_le in H
    | H : N.leb _ _ = false |- _ => apply N.leb_gt in H
    | H : N.eqb _ _ = true |- _ => apply N.eqb_eq in H
    | H : N.eqb _ _ = false |- _ => apply N.eqb_neq in H
    | H : N.ltb _ _ = true |- _ => apply N.ltb_lt in H
    | H : N.ltb _ _ = false |- _ => apply N.ltb_ge in H
    end.

Lemma token_char_ascii (c : char) :
  in_token_class c = true -> isspace c = false -> is_ascii c = true.
Proof.
  intros H Hs. unfold in_token_class in H.
  rewrite Hs, orb_false_r in H.
  unfold is_ascii. apply N.ltb_lt. char_arith; lia.
Qed.

Lemma ascii_digit_is_ascii (c : char) :
  is_ascii_digit c = true -> is_ascii c = true.
Proof. intros H. unfold is_ascii. apply N.ltb_lt. char_arith; lia. Qed.

Lemma ascii_lower_is_ascii (c : char) :
  is_ascii c = true -> is_ascii (ascii_lower c) = true.
Proof.
  intros H. unfold ascii_lower. destruct (is_upper c) eqn:E; [|assumption].
  unfold is_ascii. apply N.ltb_lt. char_arith; lia.
Qed.

Lemma sanitize_char_space (c : char) :
  isspace c = true -> sanitize_char c = c.
Proof.
  intros H. unfold sanitize_char, in_token_class. rewrite H.
  now rewrite orb_true_r.
Qed.

Lemma sanitize_app (a b : str) : sanitize (a ++ b) = sanitize a ++ sanitize b.
Proof. apply map_app. Qed.

Lemma sanitize_join (l : list str) :
  sanitize (join [space] l) = join [space] (map sanitize l).
Proof.
  induction l as [|p [|q l] IH]; simpl; try reflexivity.
  rewrite sanitize_app. simpl in IH |- *. now rewrite IH.
Qed.

Lemma sanitized_chars (text : str) (c : char) :
  In c (sanitize text) -> isspace c = false -> is_ascii c = true.
Proof.
  unfold sanitize. rewrite in_map_iff. intros (d & <- & _).
  unfold sanitize_char. destruct (in_token_class d) eqn:E.
  - now apply token_char_ascii.
  - discriminate.
Qed.

Lemma split_on_runs_sanitize_ascii (r : bool) (text : str) :
  Forall ascii_str (split_on_runs r (sanitize text)).
Proof. apply split_on_runs_chars, sanitized_chars. Qed.

Lemma split_sanitize_ascii (text : str) :
  Forall ascii_str (split (sanitize text)).
Proof.
  rewrite split_filter_runs. apply Forall_forall. intros w Hw.
  apply filter_In in Hw as [Hw _]. revert w Hw. apply Forall_forall.
  apply split_on_runs_sanitize_ascii.
Qed.

Lemma filter_map_concat (A B : Type) (f : A -> B) (p : B -> bool)
    (ls : list (list A)) :
  filter p (map f (concat ls)) = concat (map (fun l => filter p (map f l)) ls).
Proof.
  induction ls as [|l ls IH]; simpl; [reflexivity|].
  now rewrite map_app, filter_app, IH.
Qed.

(** *** The steps of the specification and the functions of the code *)

Lemma spec_whitespace_isspace (c : char) : spec_whitespace c = isspace c.
Proof.
  unfold spec_whitespace, spec_whitespace_points. cbn [existsb].
  repeat match goal with
    | |- context [N.eqb c ?k] =>
        destruct (N.eqb_spec c k) as [->|?]; [reflexivity|]
    end.
  cbn [orb]. symmetry. unfold isspace, in_range.
  repeat (apply orb_false_iff; split);
    try apply andb_false_iff; rewrite ?N.leb_gt, ?N.eqb_neq; lia.
Qed.

Lemma spec_replace_sanitize (c : char) : spec_replace c = sanitize_char c.
Proof.
  unfold spec_replace, sanitize_char, spec_in_class, in_token_class.
  now rewrite spec_whitespace_isspace.
Qed.

Lemma map_spec_replace (text : str) : map spec_replace text = sanitize text.
Proof. apply map_ext, spec_replace_sanitize. Qed.

Lemma spec_split_runs_code (r : bool) (s : str) :
  spec_split_runs r s = split_on_runs r s.
Proof.
  revert r; induction s as [|c s IH]; intros r; simpl; [reflexivity|].
  rewrite spec_whitespace_isspace, !IH. reflexivity.
Qed.

Lemma map_ascii_lower_spec (w : str) : map ascii_lower w = spec_lowercase w.
Proof. reflexivity. Qed.

Lemma lstrip_apostrophes_spec (w : str) :
  lstrip is_apostrophe w = drop_leading_apostrophes w.
Proof.
  induction w as [|c w IH]; simpl; [reflexivity|].
  unfold is_apostrophe at 1. unfold apostrophe.
  destruct (N.eqb c 39); [exact IH | reflexivity].
Qed.

Lemma lstrip_nil_iff (p : char -> bool) (s : str) :
  lstrip p s = [] <-> forallb p s = true.
Proof.
  induction s as [|c s IH]; simpl; [tauto|].
  destruct (p c); simpl; [exact IH | split; discriminate].
Qed.

Lemma lstrip_snoc (p : char -> bool) (s : str) (c : char) :
  lstrip p (s ++ [c])
  = match lstrip p s with
    | [] => if p c then [] else [c]
    | r => r ++ [c]
    end.
Proof.
  induction s as [|d s IH]; simpl; [reflexivity|].
  destruct (p d); [exact IH | reflexivity].
Qed.

Lemma rstrip_cons (p : char -> bool) (c : char) (s : str) :
  rstrip p (c :: s)
  = match rstrip p s with
    | [] => if p c then [] else [c]
    | r => c :: r
    end.
Proof.
  unfold rstrip. simpl rev. rewrite lstrip_snoc.
  destruct (lstrip p (rev s)) as [|d r] eqn:E; simpl.
  - now destruct (p c).
  - rewrite rev_app_distr. simpl.
    destruct (rev r ++ [d]) eqn:E'; [|reflexivity].
    now destruct (rev r).
Qed.

Lemma rstrip_apostrophes_spec (w : str) :
  rstrip is_apostrophe w = drop_trailing_apostrophes w.
Proof.
  induction w as [|c w IH]; [reflexivity|].
  rewrite rstrip_cons, IH. reflexivity.
Qed.

Lemma spec_is_stopword_code (w : str) : spec_is_stopword w = in_stopwords w.
Proof.
  unfold spec_is_stopword.
  destruct (in_dec (list_eq_dec N.eq_dec) w STOPWORDS) as [H|H].
  - symmetry. now apply in_stopwords_In.
  - destruct (in_stopwords w) eqn:E; [|reflexivity].
    apply in_stopwords_In in E. contradiction.
Qed.

Lemma dropped_by_spec_dropped (w : str) : dropped_by_spec w = spec_dropped w.
Proof.
  unfold dropped_by_spec, spec_dropped. rewrite spec_is_stopword_code.
  destruct w; reflexivity.
Qed.

Section TokenizerFacts.

Variable U : unicode_tables.

Lemma lower_ascii (w : str) : ascii_str w -> lower U w = map ascii_lower w.
Proof.
  intros H. unfold lower.
  replace (forallb is_ascii w) with true; [reflexivity|].
  symmetry. apply forallb_forall. now apply Forall_forall.
Qed.

Lemma lower_nil : lower U [] = [].
Proof. reflexivity. Qed.

Lemma normalize_nil : normalize U [] = [].
Proof. reflexivity. Qed.

Lemma keep_token_nil : keep_token U [] = false.
Proof. reflexivity. Qed.

Lemma normalize_ascii (w : str) : ascii_str w -> ascii_str (normalize U w).
Proof.
  intros H. unfold normalize. apply strip_chars_Forall.
  rewrite (lower_ascii w H). unfold ascii_str. rewrite Forall_map.
  revert H. apply Forall_impl. apply ascii_lower_is_ascii.
Qed.

Lemma isdigit_char_ascii (c : char) :
  is_ascii c = true -> isdigit_char U c = is_ascii_digit c.
Proof. intros H. unfold isdigit_char. now rewrite H. Qed.

Lemma isdigit_ascii (w : str) :
  ascii_str w -> isdigit U w = nonempty w && forallb is_ascii_digit w.
Proof.
  intros H. unfold isdigit, nonempty. f_equal.
  induction H as [|c w Hc Hw IH]; simpl; [reflexivity|].
  now rewrite IH, (isdigit_char_ascii c Hc).
Qed.

Lemma keep_token_spec (w : str) :
  ascii_str w -> keep_token U w = negb (dropped_by_spec w).
Proof.
  intros H. unfold keep_token, dropped_by_spec.
  rewrite (isdigit_ascii w H). unfold nonempty.
  destruct (is_empty w), (in_stopwords w), (forallb is_ascii_digit w);
    reflexivity.
Qed.

(** The tokens only ever meet the ASCII part of the Unicode tables. *)
Lemma clean_tokens_tables (U' : unicode_tables) (text : str) :
  clean_tokens U text = clean_tokens U' text.
Proof.
  unfold clean_tokens.
  pose proof (split_sanitize_ascii text) as H.
  induction H as [|w ws Hw Hws IH]; simpl; [reflexivity|].
  assert (E : normalize U w = normalize U' w).
  { unfold normalize, lower.
    replace (forallb is_ascii w) with true; [reflexivity|].
    symmetry. apply forallb_forall. now apply Forall_forall. }
  assert (Hn : ascii_str (normalize U' w)).
  { rewrite <- E. now apply normalize_ascii. }
  rewrite E, IH. unfold keep_token at 1 3. unfold isdigit.
  replace (forallb (isdigit_char U) (normalize U' w))
    with (forallb (isdigit_char U') (normalize U' w)); [reflexivity|].
  clear - Hn. induction Hn as [|c v Hc Hv IHv]; simpl; [reflexivity|].
  rewrite IHv. unfold isdigit_char. now rewrite Hc.
Qed.

Lemma clean_tokens_join (l : list str) :
  clean_tokens U (join [space] l) = concat (map (clean_tokens U) l).
Proof.
  unfold clean_tokens. rewrite sanitize_join, split_join, filter_map_concat.
  now rewrite !map_map.
Qed.

Lemma clean_tokens_nil : clean_tokens U [] = [].
Proof. reflexivity. Qed.

Lemma filter_normalize_nonempty (l : list str) :
  filter (keep_token U) (map (normalize U) (filter nonempty l))
  = filter (keep_token U) (map (normalize U) l).
Proof.
  induction l as [|w l IH]; simpl; [reflexivity|].
  destruct w as [|c w]; simpl; [apply IH|].
  now rewrite IH.
Qed.

Lemma normalize_spec (w : str) :
  ascii_str w ->
  normalize U w
  = drop_trailing_apostrophes (drop_leading_apostrophes (spec_lowercase w)).
Proof.
  intros H. unfold normalize. rewrite (lower_ascii w H).
  rewrite map_ascii_lower_spec. unfold strip_chars.
  now rewrite rstrip_apostrophes_spec, lstrip_apostrophes_spec.
Qed.

Lemma clean_tokens_refines_spec (text : str) :
  clean_tokens U text = tokenize_spec text.
Proof.
  unfold clean_tokens, tokenize_spec.
  rewrite map_spec_replace, spec_split_runs_code.
  rewrite split_filter_runs, filter_normalize_nonempty.
  pose proof (split_on_runs_sanitize_ascii false text) as H.
  induction H as [|w ws Hw Hws IH]; [reflexivity|]. cbn [map filter].
  rewrite <- (normalize_spec w Hw), <- IH.
  rewrite (keep_token_spec (normalize U w) (normalize_ascii w Hw)).
  now rewrite dropped_by_spec_dropped.
Qed.

Lemma kept_token (text w : str) :
  In w (clean_tokens U text) -> keep_token U w = true.
Proof. unfold clean_tokens. intros H. now apply filter_In in H. Qed.

End TokenizerFacts.

(** ** Sorting *)

Lemma StronglySorted_weaken (A : Type) (R R' : A -> A -> Prop) (l : list A) :
  (forall a b, In a l -> In b l -> R a b -> R' a b) ->
  StronglySorted R l -> StronglySorted R' l.
Proof.
  intros H S. induction S as [|a l S IH Ha]; constructor.
  - apply IH. intros x y Hx Hy. apply H; now right.
  - rewrite Forall_forall in *. intros b Hb.
    apply H; [now left | now right | now apply Ha].
Qed.

Lemma StronglySorted_snoc (A : Type) (R : A -> A -> Prop) (l : list A) (x : A) :
  StronglySorted R l -> Forall (fun a => R a x) l -> StronglySorted R (l ++ [x]).
Proof.
  intros S. induction S as [|a l S IH Ha]; intros F; simpl.
  - repeat constructor.
  - inversion F as [|? ? Hax Fl]; subst. constructor; [now apply IH|].
    apply Forall_app. split; [assumption | now constructor].
Qed.

Lemma StronglySorted_map (A B : Type) (f : A -> B) (R : B -> B -> Prop)
    (l : list A) :
  StronglySorted R (map f l) -> StronglySorted (fun a b => R (f a) (f b)) l.
Proof.
  induction l as [|a l IH]; simpl; intros S; [constructor|].
  inversion S as [|? ? S' F]; subst. constructor; [now apply IH|].
  now rewrite Forall_map in F.
Qed.

Lemma In_firstn (A : Type) (n : nat) (l : list A) (x : A) :
  In x (firstn n l) -> In x l.
Proof.
  intros H. rewrite <- (firstn_skipn n l). apply in_or_app. now left.
Qed.

Lemma StronglySorted_firstn (A : Type) (R : A -> A -> Prop) (n : nat)
    (l : list A) :
  StronglySorted R l -> StronglySorted R (firstn n l).
Proof.
  revert l; induction n as [|n IH]; intros l S; simpl; [constructor|].
  destruct S as [|a l S F]; constructor; [now apply IH|].
  rewrite Forall_forall in *. intros b Hb. apply F.
  revert Hb. apply In_firstn.
Qed.

Section SortingFacts.

Variables (A K : Type) (lt : K -> K -> bool) (key : A -> K).

Lemma insert_desc_perm (x : A) (l : list A) :
  Permutation (insert_desc lt key x l) (x :: l).
Proof.
  induction l as [|y l IH]; simpl; [reflexivity|].
  destruct (lt (key x) (key y)); [|reflexivity].
  rewrite IH. apply perm_swap.
Qed.

Lemma sort_desc_perm (l : list A) : Permutation (sort_desc lt key l) l.
Proof.
  induction l as [|x l IH]; simpl; [reflexivity|].
  rewrite insert_desc_perm. now constructor.
Qed.

Lemma sort_desc_In (x : A) (l : list A) : In x (sort_desc lt key l) <-> In x l.
Proof.
  split; apply Permutation_in;
    [apply sort_desc_perm | symmetry; apply sort_desc_perm].
Qed.

(** [<] as a strict weak order: asymmetric, and "not less than" is
    transitive. *)
Hypothesis lt_asym : forall a b, lt a b = true -> lt b a = false.
Hypothesis lt_negtrans :
  forall a b c, lt a b = false -> lt b c = false -> lt a c = false.

Lemma insert_desc_ranks (before : A -> A -> Prop) (x : A) (l : list A) :
  Forall (before x) l ->
  StronglySorted (ranks lt key before) l ->
  StronglySorted (ranks lt key before) (insert_desc lt key x l).
Proof.
  intros F S. induction S as [|y l S IH Hy]; simpl.
  - repeat constructor.
  - inversion F as [|? ? Hxy Fl]; subst.
    destruct (lt (key x) (key y)) eqn:E.
    + constructor; [now apply IH|].
      apply Permutation_Forall with (x :: l);
        [symmetry; apply insert_desc_perm|].
      constructor; [|assumption].
      split; [now apply lt_asym | now left].
    + constructor; [now constructor|].
      constructor; [split; [assumption | now right]|].
      rewrite Forall_forall in *. intros z Hz.
      destruct (Hy z Hz) as [Hyz _].
      split; [now apply lt_negtrans with (key y) | right; now apply Fl].
Qed.

(** The sort puts the keys in descending order and is stable: whatever
    relation [before] held from each item to the items after it still orders
    the items whose keys are tied. *)
Lemma sort_desc_ranks (before : A -> A -> Prop) (l : list A) :
  StronglySorted before l ->
  StronglySorted (ranks lt key before) (sort_desc lt key l).
Proof.
  induction 1 as [|x l S IH F]; simpl; [constructor|].
  apply insert_desc_ranks; [|assumption].
  apply Permutation_Forall with l; [symmetry; apply sort_desc_perm|].
  assumption.
Qed.

Lemma sort_desc_sorted (l : list A) :
  StronglySorted (fun a b => lt (key a) (key b) = false) (sort_desc lt key l).
Proof.
  apply StronglySorted_weaken with (R := ranks lt key (fun _ _ => True)).
  - intros a b _ _ [H _]. exact H.
  - apply sort_desc_ranks. induction l; constructor; [assumption|].
    now apply Forall_forall.
Qed.

Lemma insert_desc_stable (v : K) (x : A) (l : list A) :
  filter (fun a => tied lt (key a) v) (insert_desc lt key x l)
  = filter (fun a => tied lt (key a) v) (x :: l).
Proof.
  induction l as [|y l IH]; simpl; [reflexivity|].
  destruct (lt (key x) (key y)) eqn:E; [|reflexivity].
  simpl in *. rewrite IH.
  destruct (tied lt (key x) v) eqn:Tx; [|reflexivity].
  destruct (tied lt (key y) v) eqn:Ty; [|reflexivity].
  exfalso. unfold tied in *.
  apply andb_true_iff in Tx as [Hxv _], Ty as [_ Hvy].
  apply negb_true_iff in Hxv, Hvy.
  rewrite (lt_negtrans _ _ _ Hxv Hvy) in E. discriminate.
Qed.

(** Stability, stated on the items of each class of tied keys: the sort
    leaves them in the order they came in. *)
Lemma sort_desc_stable (v : K) (l : list A) :
  filter (fun a => tied lt (key a) v) (sort_desc lt key l)
  = filter (fun a => tied lt (key a) v) l.
Proof.
  induction l as [|x l IH]; simpl; [reflexivity|].
  rewrite insert_desc_stable. simpl. now rewrite IH.
Qed.

End SortingFacts.

Lemma sort_desc_nil (A K : Type) (lt : K -> K -> bool) (key : A -> K) :
  sort_desc lt key [] = [].
Proof. reflexivity. Qed.

Lemma nat_ltb_asym (a b : nat) : Nat.ltb a b = true -> Nat.ltb b a = false.
Proof. rewrite Nat.ltb_lt, Nat.ltb_ge. lia. Qed.

Lemma nat_ltb_negtrans (a b c : nat) :
  Nat.ltb a b = false -> Nat.ltb b c = false -> Nat.ltb a c = false.
Proof. rewrite !Nat.ltb_ge. lia. Qed.

(** ** Counter *)

Lemma counter_get_incr (t x : str) (c : list (str * nat)) :
  counter_get (counter_incr t c) x
  = if str_eqb t x then S (counter_get c x) else counter_get c x.
Proof.
  induction c as [|[k v] c IH]; simpl.
  - now destruct (str_eqb t x).
  - destruct (str_eqb k t) eqn:Ekt; simpl.
    + apply str_eqb_eq in Ekt. subst k. now destruct (str_eqb t x).
    + rewrite IH. destruct (str_eqb k x) eqn:Ekx; [|reflexivity].
      apply str_eqb_eq in Ekx. subst k. now rewrite str_eqb_sym, Ekt.
Qed.

Lemma Counter_snoc (l : list str) (t : str) :
  Counter (l ++ [t]) = counter_incr t (Counter l).
Proof. unfold Counter. now rewrite fold_left_app. Qed.

Lemma occurrences_snoc (l : list str) (t x : str) :
  occurrences (l ++ [t]) x
  = if str_eqb t x then S (occurrences l x) else occurrences l x.
Proof.
  unfold occurrences. rewrite count_occ_app. simpl.
  destruct (str_eq_dec t x) as [->|N].
  - rewrite str_eqb_refl. lia.
  - apply str_eqb_neq in N. rewrite N. lia.
Qed.

Lemma counter_get_Counter (l : list str) (x : str) :
  counter_get (Counter l) x = occurrences l x.
Proof.
  induction l as [|t l IH] using rev_ind; [reflexivity|].
  now rewrite Counter_snoc, counter_get_incr, occurrences_snoc, IH.
Qed.

Lemma counter_incr_In (t k : str) (v : nat) (c : list (str * nat)) :
  NoDup (map fst c) ->
  In (k, v) (counter_incr t c) ->
  (k <> t /\ In (k, v) c) \/ (k = t /\ v = S (counter_get c t)).
Proof.
  induction c as [|[k0 v0] c IH]; simpl; intros ND H.
  - destruct H as [H|[]]. injection H as <- <-. now right.
  - inversion ND as [|? ? Hk0 ND']; subst.
    destruct (str_eqb k0 t) eqn:E.
    + apply str_eqb_eq in E. subst k0. destruct H as [H|H].
      * injection H as <- <-. now right.
      * left. split; [|now right]. intros ->. apply Hk0.
        now apply (in_map fst) in H.
    + apply str_eqb_neq in E. destruct H as [H|H].
      * injection H as <- <-. left. split; [assumption | now left].
      * destruct (IH ND' H) as [[Hk Hin]|[Hk Hv]]; [left | right]; auto.
Qed.

Lemma counter_incr_keys (t : str) (c : list (str * nat)) :
  map fst (counter_incr t c)
  = if existsb (str_eqb t) (map fst c) then map fst c else map fst c ++ [t].
Proof.
  induction c as [|[k v] c IH]; simpl; [reflexivity|].
  rewrite (str_eqb_sym t k). destruct (str_eqb k t); simpl; [reflexivity|].
  rewrite IH. now destruct (existsb (str_eqb t) (map fst c)).
Qed.

Lemma first_index_lt (a : str) (l : list str) :
  In a l -> first_index a l < length l.
Proof.
  induction l as [|x l IH]; simpl; [contradiction|]. intros H.
  destruct (str_eqb x a) eqn:E; [lia|].
  apply str_eqb_neq in E. destruct H as [H|H]; [contradiction|].
  apply IH in H. lia.
Qed.

Lemma first_index_app (a : str) (l l' : list str) :
  In a l -> first_index a (l ++ l') = first_index a l.
Proof.
  induction l as [|x l IH]; simpl; [contradiction|]. intros H.
  destruct (str_eqb x a) eqn:E; [reflexivity|].
  apply str_eqb_neq in E. destruct H as [H|H]; [contradiction|].
  now rewrite IH.
Qed.

Lemma first_index_new (a : str) (l : list str) :
  ~ In a l -> first_index a (l ++ [a]) = length l.
Proof.
  induction l as [|x l IH]; simpl; intros H.
  - now rewrite str_eqb_refl.
  - destruct (str_eqb x a) eqn:E.
    + apply str_eqb_eq in E. tauto.
    + rewrite IH; tauto.
Qed.

(** The keys of a counter are the distinct tokens, in first-seen order. *)
Lemma Counter_keys (l : list str) :
  (forall k, In k (map fst (Counter l)) <-> In k l)
  /\ StronglySorted (seen_before l) (map fst (Counter l)).
Proof.
  induction l as [|t l [IHin IHs]] using rev_ind.
  - split; [reflexivity | constructor].
  - rewrite Counter_snoc, counter_incr_keys.
    destruct (existsb (str_eqb t) (map fst (Counter l))) eqn:E.
    + apply mem_str_In, IHin in E. split.
      * intros k. rewrite IHin, in_app_iff. simpl.
        split; [tauto | intros [H|[<-|[]]]; assumption].
      * revert IHs. apply StronglySorted_weaken.
        intros a b Ha Hb. apply IHin in Ha, Hb. unfold seen_before.
        now rewrite !first_index_app.
    + assert (Ht : ~ In t l).
      { intros H. apply IHin, mem_str_In in H. congruence. }
      split.
      * intros k. rewrite !in_app_iff, IHin. reflexivity.
      * apply StronglySorted_snoc.
        -- revert IHs. apply StronglySorted_weaken.
           intros a b Ha Hb. apply IHin in Ha, Hb. unfold seen_before.
           now rewrite !first_index_app.
        -- apply Forall_forall. intros a Ha. apply IHin in Ha.
           unfold seen_before.
           rewrite first_index_app, first_index_new by assumption.
           now apply first_index_lt.
Qed.

Lemma seen_before_irrefl (l : list str) (a : str) : ~ seen_before l a a.
Proof. unfold seen_before. lia. Qed.

Lemma Counter_keys_NoDup (l : list str) : NoDup (map fst (Counter l)).
Proof.
  destruct (Counter_keys l) as [_ S].
  induction S as [|a ks S IH F]; constructor; [|assumption].
  intros H. rewrite Forall_forall in F.
  exact (seen_before_irrefl l a (F a H)).
Qed.

(** Every item of a counter carries the number of occurrences of its key. *)
Lemma Counter_items (l : list str) (k : str) (v : nat) :
  In (k, v) (Counter l) -> v = occurrences l k /\ In k l.
Proof.
  intros H. split.
  - revert k v H. induction l as [|t l IH] using rev_ind; [contradiction|].
    intros k v. rewrite Counter_snoc. intros H.
    apply counter_incr_In in H; [|apply Counter_keys_NoDup].
    rewrite occurrences_snoc. destruct H as [[Hk Hin]|[-> ->]].
    + replace (str_eqb t k) with false; [now apply IH|].
      symmetry. apply str_eqb_neq. congruence.
    + now rewrite str_eqb_refl, counter_get_Counter.
  - apply (Counter_keys l). now apply (in_map fst) in H.
Qed.

(** ** Keyword ranker *)

Lemma most_common_ranked (toks : list str) (n : Z) :
  StronglySorted (outranks toks) (most_common n (Counter toks)).
Proof.
  unfold most_common. destruct (n <? 0)%Z; [constructor|].
  apply StronglySorted_firstn.
  apply StronglySorted_weaken
    with (R := ranks Nat.ltb snd
                 (fun a b => seen_before toks (fst a) (fst b))).
  - intros a b _ _ [H1 H2]. apply Nat.ltb_ge in H1. unfold outranks.
    destruct H2 as [H2|H2]; [apply Nat.ltb_lt in H2; now left|].
    destruct (Nat.eq_dec (snd a) (snd b)); [now right | left; lia].
  - apply sort_desc_ranks;
      [exact nat_ltb_asym | exact nat_ltb_negtrans |].
    apply StronglySorted_map, Counter_keys.
Qed.

Lemma most_common_In (toks : list str) (n : Z) (t : str) (c : nat) :
  In (t, c) (most_common n (Counter toks)) -> In (t, c) (Counter toks).
Proof.
  unfold most_common. destruct (n <? 0)%Z; [contradiction|].
  intros H. apply In_firstn in H. now apply sort_desc_In in H.
Qed.

Lemma most_common_length (toks : list str) (n : Z) :
  (0 <= n)%Z -> (Z.of_nat (length (most_common n (Counter toks))) <= n)%Z.
Proof.
  intros Hn. unfold most_common. destruct (n <? 0)%Z; simpl; [assumption|].
  pose proof (firstn_le_length (Z.to_nat n)
    (sort_desc Nat.ltb snd (Counter toks))). lia.
Qed.


(** ** Sentence segmenter *)

Lemma content_app (a b : str) : content (a ++ b) = content a ++ content b.
Proof. apply filter_app. Qed.

Lemma content_lstrip (s : str) : content (lstrip isspace s) = content s.
Proof.
  induction s as [|c s IH]; simpl; [reflexivity|].
  destruct (isspace c) eqn:E; simpl; [assumption | now rewrite E].
Qed.

Lemma content_rev (s : str) : content (rev s) = rev (content s).
Proof.
  induction s as [|c s IH]; simpl; [reflexivity|].
  rewrite content_app, IH. simpl. destruct (isspace c); simpl;
    [now rewrite app_nil_r | reflexivity].
Qed.

Lemma content_strip (s : str) : content (strip s) = content s.
Proof.
  unfold strip, strip_chars, rstrip.
  now rewrite content_rev, content_lstrip, content_rev, rev_involutive,
    content_lstrip.
Qed.

Lemma content_nil_lstrip (s : str) : content s = [] -> lstrip isspace s = [].
Proof.
  induction s as [|c s IH]; simpl; [reflexivity|].
  destruct (isspace c); simpl; [assumption | discriminate].
Qed.

Lemma strip_nil_iff (s : str) : strip s = [] <-> content s = [].
Proof.
  split; intros H.
  - now rewrite <- content_strip, H.
  - unfold strip, strip_chars. now rewrite (content_nil_lstrip s H).
Qed.

Lemma content_nil_iff (s : str) : content s = [] <-> forallb isspace s = true.
Proof.
  induction s as [|c s IH]; simpl; [tauto|].
  destruct (isspace c); simpl; [assumption | split; discriminate].
Qed.

Lemma re_split_from_not_nil (g a : bool) (text : str) :
  re_split_from g a text <> [].
Proof.
  revert g a; induction text as [|c text IH]; intros g a; simpl;
    [discriminate|].
  destruct (isspace c).
  - destruct g; [apply IH|]. destruct a; [discriminate|].
    specialize (IH false false).
    destruct (re_split_from false false text); [contradiction|discriminate].
  - specialize (IH false (is_terminator c)).
    destruct (re_split_from false (is_terminator c) text);
      [contradiction|discriminate].
Qed.

Lemma concat_cons_head (c : char) (parts : list str) :
  parts <> [] -> concat (cons_head c parts) = c :: concat parts.
Proof. destruct parts; [contradiction | reflexivity]. Qed.

(** The pieces of the split hold every code point of the text but the
    whitespace of the matches. *)
Lemma re_split_from_content (text : str) (g a : bool) :
  content (concat (re_split_from g a text)) = content text.
Proof.
  revert g a; induction text as [|c text IH]; intros g a; [reflexivity|].
  cbn [re_split_from]. unfold content at 2. cbn [filter].
  fold (content text).
  destruct (isspace c) eqn:E; cbn [negb].
  - destruct g; [apply IH|]. destruct a; [apply IH|].
    rewrite concat_cons_head by apply re_split_from_not_nil.
    unfold content at 1. cbn [filter]. rewrite E. apply IH.
  - rewrite concat_cons_head by apply re_split_from_not_nil.
    unfold content at 1. cbn [filter]. rewrite E. cbn [negb].
    f_equal. apply IH.
Qed.

Lemma strip_kept_content (parts : list str) :
  content (concat (map strip
    (filter (fun p => negb (is_empty (strip p))) parts)))
  = content (concat parts).
Proof.
  induction parts as [|p parts IH]; [reflexivity|].
  cbn [filter concat]. rewrite content_app, <- IH.
  destruct (is_empty (strip p)) eqn:E; cbn [negb].
  - apply is_empty_true, strip_nil_iff in E. now rewrite E.
  - cbn [map concat]. now rewrite content_app, content_strip.
Qed.

Lemma split_sentences_content (text : str) :
  content (concat (split_sentences text)) = content text.
Proof.
  unfold split_sentences, re_split.
  now rewrite strip_kept_content, re_split_from_content.
Qed.

Lemma split_sentences_In (text s : str) :
  In s (split_sentences text) ->
  exists p, In p (re_split text) /\ s = strip p /\ strip p <> [].
Proof.
  unfold split_sentences. intros H.
  apply in_map_iff in H as (p & <- & Hp).
  apply filter_In in Hp as [Hp E]. exists p. repeat split; [assumption|].
  intros N. now rewrite N in E.
Qed.

Lemma split_sentences_trimmed (text s : str) :
  In s (split_sentences text) -> strip s <> [].
Proof.
  intros H. apply split_sentences_In in H as (p & _ & -> & Hp).
  rewrite strip_nil_iff, content_strip, <- strip_nil_iff. exact Hp.
Qed.

Lemma terminator_not_space (c : char) :
  is_terminator c = true -> isspace c = false.
Proof.
  intros H. unfold is_terminator in H.
  assert (E : c = 0x2E%N \/ c = 0x21%N \/ c = 0x3F%N).
  { char_arith; auto. }
  destruct E as [->|[->| ->]]; reflexivity.
Qed.

(** Without a terminator followed by whitespace there is no match, and the
    split returns the text as its only piece. *)
Lemma re_split_from_no_match (text : str) (a : bool) :
  a && head_is_space text = false ->
  term_then_space text = false ->
  re_split_from false a text = [text].
Proof.
  revert a; induction text as [|c text IH]; intros a Ha Ht; [reflexivity|].
  cbn [re_split_from]. cbn [term_then_space] in Ht.
  apply orb_false_iff in Ht as [Hc Ht]. fold (head_is_space text) in Hc.
  destruct (isspace c) eqn:E.
  - simpl in Ha. rewrite E, andb_true_r in Ha. subst a.
    rewrite IH; [reflexivity | reflexivity | assumption].
  - rewrite IH; [reflexivity | assumption | assumption].
Qed.

Lemma split_sentences_no_match (text : str) :
  term_then_space text = false ->
  split_sentences text = if is_empty (strip text) then [] else [strip text].
Proof.
  intros H. unfold split_sentences, re_split.
  rewrite re_split_from_no_match by (reflexivity || assumption).
  cbn [filter]. now destruct (is_empty (strip text)).
Qed.

Lemma whitespace_no_match (text : str) :
  forallb isspace text = true -> term_then_space text = false.
Proof.
  induction text as [|c text IH]; simpl; [reflexivity|]. intros H.
  apply andb_true_iff in H as [Hc H]. rewrite (IH H), orb_false_r.
  destruct (is_terminator c) eqn:E; [|reflexivity].
  apply terminator_not_space in E. congruence.
Qed.

Lemma split_sentences_nil_iff (text : str) :
  split_sentences text = [] <-> forallb isspace text = true.
Proof.
  split; intros H.
  - apply content_nil_iff. rewrite <- split_sentences_content, H. reflexivity.
  - rewrite split_sentences_no_match by now apply whitespace_no_match.
    apply content_nil_iff, strip_nil_iff in H. now rewrite H.
Qed.

(** ** Sentence scorer *)

Lemma Counter_nil_iff (l : list str) : Counter l = [] <-> l = [].
Proof.
  split; [|now intros ->].
  destruct l as [|t l]; [reflexivity|]. intros H. exfalso.
  assert (Hin : In t (map fst (Counter (t :: l)))).
  { apply (Counter_keys (t :: l)). now left. }
  now rewrite H in Hin.
Qed.

Lemma concat_nil_In (A : Type) (ls : list (list A)) (l : list A) :
  concat ls = [] -> In l ls -> l = [].
Proof.
  induction ls as [|x ls IH]; simpl; [contradiction|]. intros H.
  apply app_eq_nil in H as [Hx Hls]. intros [<-|Hl]; auto.
Qed.

Lemma list_sum_ge_length (f : str -> nat) (l : list str) :
  (forall t, In t l -> 1 <= f t) -> length l <= list_sum (map f l).
Proof.
  induction l as [|t l IH]; simpl; intros H; [lia|].
  assert (1 <= f t) by (apply H; now left).
  assert (length l <= list_sum (map f l)) by (apply IH; intros; apply H; now right).
  lia.
Qed.

Lemma filter_none (A : Type) (f : A -> bool) (l : list A) :
  (forall x, In x l -> f x = false) -> filter f l = [].
Proof.
  induction l as [|x l IH]; simpl; intros H; [reflexivity|].
  rewrite (H x) by now left. apply IH. intros y Hy. apply H. now right.
Qed.

Section ScorerFacts.

Variable U : unicode_tables.
Variable F : float_ops.

Lemma score_loop_scored (freqs : list (str * nat)) (sentences : list str) :
  score_loop U F freqs sentences = scored_sentences U F freqs sentences.
Proof.
  unfold scored_sentences.
  induction sentences as [|s rest IH]; simpl; [reflexivity|].
  unfold has_tokens at 1.
  destruct (clean_tokens U s) eqn:E; simpl; [exact IH|].
  now rewrite E, IH.
Qed.

Lemma no_words_no_tokens (sentences : list str) (s : str) :
  clean_tokens U (join [space] sentences) = [] ->
  In s sentences -> clean_tokens U s = [].
Proof.
  rewrite clean_tokens_join. intros H Hs.
  apply (concat_nil_In _ _ _ H). now apply in_map.
Qed.

(** The early return changes nothing: without words no sentence has
    tokens, and the loop would append nothing. *)
Lemma score_sentences_sorted_scored (sentences : list str) :
  score_sentences U F sentences
  = sort_desc (float_lt F) snd
      (scored_sentences U F (Counter (clean_tokens U (join [space] sentences)))
         sentences).
Proof.
  unfold score_sentences. rewrite score_loop_scored.
  destruct (clean_tokens U (join [space] sentences)) eqn:E; [|reflexivity].
  unfold scored_sentences.
  replace (filter (has_tokens U) sentences) with (@nil str); [reflexivity|].
  symmetry. apply filter_none. intros s Hs. unfold has_tokens.
  now rewrite (no_words_no_tokens sentences s E Hs).
Qed.

Lemma score_sentences_In (sentences : list str) (s : str) (sc : float F) :
  In (s, sc) (score_sentences U F sentences) <->
  In s sentences /\ clean_tokens U s <> [] /\
  sc = sentence_score F (Counter (clean_tokens U (join [space] sentences)))
         (clean_tokens U s).
Proof.
  rewrite score_sentences_sorted_scored, sort_desc_In.
  unfold scored_sentences. rewrite in_map_iff. split.
  - intros (x & E & Hx). injection E as -> <-.
    apply filter_In in Hx as [Hx Ht]. repeat split; [assumption|].
    unfold has_tokens in Ht. now destruct (clean_tokens U s).
  - intros (Hs & Ht & ->). exists s. split; [reflexivity|].
    apply filter_In. split; [assumption|]. unfold has_tokens.
    now destruct (clean_tokens U s).
Qed.

Lemma score_sentences_nil : score_sentences U F [] = [].
Proof. reflexivity. Qed.

(** Every token of a sentence is a word of the joined text. *)
Lemma token_frequency (sentences : list str) (s t : str) :
  In s sentences -> In t (clean_tokens U s) ->
  1 <= counter_get (Counter (clean_tokens U (join [space] sentences))) t.
Proof.
  intros Hs Ht. rewrite counter_get_Counter. unfold occurrences.
  apply count_occ_In. rewrite clean_tokens_join. apply in_concat.
  exists (clean_tokens U s). split; [now apply in_map | assumption].
Qed.

End ScorerFacts.

(** ** Summary selector *)

Section SelectorFacts.

Variable U : unicode_tables.
Variable F : float_ops.
Variables k min_len max_len : Z.

Lemma too_short_or_long_false (s : str) :
  too_short_or_long min_len max_len s = false <-> length_ok min_len max_len s.
Proof.
  unfold too_short_or_long, length_ok.
  rewrite orb_false_iff, !Z.ltb_ge. lia.
Qed.

Lemma map_add_bullet_snoc (acc : list str) (s : str) :
  map add_bullet acc ++ [add_bullet s] = map add_bullet (acc ++ [s]).
Proof. now rewrite map_app. Qed.

(** The walk keeps what it has accepted, only accepts sentences of the
    ranking that pass the length filter, never accepts a signature twice,
    and stops at [k] bullets when it starts below [k]. *)
Lemma select_loop_accepts (ranked : list (str * float F)) :
  forall (acc used : list str),
    (forall x, In x used <-> In x (map (signature U) acc)) ->
    NoDup (map (signature U) acc) ->
    exists acc',
      select_loop U F k min_len max_len ranked (map add_bullet acc) used
      = map add_bullet (acc ++ acc')
      /\ NoDup (map (signature U) (acc ++ acc'))
      /\ (forall s, In s acc' -> In s (map fst ranked) /\ length_ok min_len max_len s)
      /\ ((Z.of_nat (length acc) < k)%Z ->
          (Z.of_nat (length (acc ++ acc')) <= k)%Z).
Proof.
  induction ranked as [|[s sc] rest IH]; intros acc used Hused ND.
  - exists []. rewrite app_nil_r.
    split; [reflexivity|]. split; [assumption|].
    split; [contradiction | lia].
  - assert (Skip : exists acc',
        select_loop U F k min_len max_len rest (map add_bullet acc) used
        = map add_bullet (acc ++ acc')
        /\ NoDup (map (signature U) (acc ++ acc'))
        /\ (forall x, In x acc' ->
              In x (map fst ((s, sc) :: rest)) /\ length_ok min_len max_len x)
        /\ ((Z.of_nat (length acc) < k)%Z ->
            (Z.of_nat (length (acc ++ acc')) <= k)%Z)).
    { destruct (IH acc used Hused ND) as (acc' & E & ND' & Hin & Hk).
      exists acc'. split; [exact E|]. split; [exact ND'|].
      split; [|exact Hk]. intros x Hx. destruct (Hin x Hx).
      split; [now right | assumption]. }
    cbn [select_loop]. fold (too_short_or_long min_len max_len s).
    destruct (too_short_or_long min_len max_len s) eqn:Elen; [exact Skip|].
    destruct (existsb (str_eqb (signature U s)) used) eqn:Esig; [exact Skip|].
    clear Skip.
    assert (Hnew : ~ In (signature U s) (map (signature U) acc)).
    { intros H. apply Hused, mem_str_In in H. congruence. }
    assert (ND1 : NoDup (map (signature U) (acc ++ [s]))).
    { rewrite map_app. simpl.
      apply NoDup_Add with (a := signature U s)
        (l := map (signature U) acc); [|now split].
      rewrite <- (app_nil_r (map (signature U) acc)) at 1.
      apply Add_app. }
    assert (Hused1 : forall x, In x (signature U s :: used)
                               <-> In x (map (signature U) (acc ++ [s]))).
    { intros x. rewrite map_app, in_app_iff. simpl. rewrite Hused. tauto. }
    apply too_short_or_long_false in Elen.
    rewrite map_add_bullet_snoc.
    destruct (k <=? Z.of_nat (length (map add_bullet (acc ++ [s]))))%Z eqn:Ek.
    + exists [s]. split; [reflexivity|]. split; [exact ND1|]. split.
      * intros x [<-|[]]. split; [now left | exact Elen].
      * rewrite length_app. simpl. lia.
    + destruct (IH (acc ++ [s]) _ Hused1 ND1) as (acc' & E & ND' & Hin & Hk).
      exists (s :: acc'). rewrite <- app_assoc in E, ND', Hk.
      split; [exact E|]. split; [exact ND'|]. split.
      * intros x [<-|Hx]; [split; [now left | exact Elen]|].
        destruct (Hin x Hx). split; [now right | assumption].
      * intros _. apply Hk. apply Z.leb_gt in Ek.
        rewrite length_map in Ek. exact Ek.
Qed.

(** The walk accepts nothing exactly when no ranked sentence passes the
    length filter: the first one that does meets no signature. *)
Lemma select_loop_nil_iff (ranked : list (str * float F)) :
  select_loop U F k min_len max_len ranked [] [] = []
  <-> Forall (fun p => ~ length_ok min_len max_len (fst p)) ranked.
Proof.
  induction ranked as [|[s sc] rest IH].
  - split; [constructor | reflexivity].
  - cbn [select_loop]. fold (too_short_or_long min_len max_len s).
    destruct (too_short_or_long min_len max_len s) eqn:Elen.
    + rewrite IH. split.
      * intros H. constructor; [|assumption]. simpl.
        rewrite <- too_short_or_long_false. congruence.
      * intros H. now inversion H.
    + cbn [existsb app]. split.
      * intros H. exfalso.
        destruct (k <=? Z.of_nat (length [add_bullet s]))%Z; [discriminate|].
        destruct (select_loop_accepts rest [s] [signature U s])
          as (acc' & E & _).
        { intros x. reflexivity. }
        { repeat constructor. intros []. }
        simpl in E. rewrite E in H. discriminate.
      * intros H. inversion H as [|? ? Hs _]; subst. exfalso. apply Hs.
        now apply too_short_or_long_false.
Qed.

End SelectorFacts.

(** ** The rational instance *)

Lemma rational_lt_asym (a b : float rational_floats) :
  float_lt rational_floats a b = true -> float_lt rational_floats b a = false.
Proof.
  simpl. intros H. apply negb_true_iff in H. apply negb_false_iff.
  apply Qle_bool_iff. destruct (Qlt_le_dec b a) as [L|L]; [|exact L].
  apply Qlt_le_weak, Qle_bool_iff in L. congruence.
Qed.

Lemma rational_lt_negtrans (a b c : float rational_floats) :
  float_lt rational_floats a b = false ->
  float_lt rational_floats b c = false ->
  float_lt rational_floats a c = false.
Proof.
  simpl. intros H1 H2. apply negb_false_iff in H1, H2. apply negb_false_iff.
  apply Qle_bool_iff in H1, H2. apply Qle_bool_iff.
  now apply Qle_trans with b.
Qed.

Lemma rational_score_pos (S n : nat) :
  1 <= n <= S ->
  float_lt rational_floats (float_of_int rational_floats 0)
    (float_div rational_floats (float_of_int rational_floats S)
       (float_pow rational_floats (float_of_int rational_floats n)
          (float_0_8 rational_floats))) = true.
Proof.
  simpl. intros [Hn HS]. apply negb_true_iff.
  destruct (Qle_bool _ _) eqn:E; [|reflexivity]. exfalso.
  apply Qle_bool_iff in E. revert E. apply Qlt_not_le.
  unfold Qdiv. apply Qmult_lt_0_compat; [|apply Qinv_lt_0_compat];
    unfold Qlt; simpl; lia.
Qed.


(** ** Tokens across the segmenter *)

Lemma split_from_whitespace (ws : str) :
  forallb isspace ws = true ->
  forall cur, split_from cur ws = if is_empty cur then [] else [rev cur].
Proof.
  induction ws as [|c ws IH]; simpl; intros H cur; [reflexivity|].
  apply andb_true_iff in H as [Hc H]. rewrite Hc, (IH H []). simpl.
  reflexivity.
Qed.

Lemma split_from_app_whitespace (a ws : str) :
  forallb isspace ws = true ->
  forall cur, split_from cur (a ++ ws) = split_from cur a.
Proof.
  intros H. induction a as [|x a IH]; intros cur; simpl.
  - now apply split_from_whitespace.
  - destruct (isspace x); [|apply IH]. now rewrite IH.
Qed.

Lemma lstrip_decompose (s : str) :
  exists ws, s = ws ++ lstrip isspace s /\ forallb isspace ws = true.
Proof.
  induction s as [|c s (ws & E & H)]; simpl.
  - now exists [].
  - destruct (isspace c) eqn:Ec.
    + exists (c :: ws). simpl. rewrite Ec, H. split; [now f_equal | reflexivity].
    + now exists [].
Qed.

Lemma rstrip_decompose (s : str) :
  exists ws, s = rstrip isspace s ++ ws /\ forallb isspace ws = true.
Proof.
  destruct (lstrip_decompose (rev s)) as (ws & E & H).
  exists (rev ws). split.
  - unfold rstrip. rewrite <- rev_app_distr, <- E. now rewrite rev_involutive.
  - rewrite forallb_forall in *. intros c Hc. apply H. now apply in_rev.
Qed.

Lemma sanitize_whitespace (ws : str) :
  forallb isspace ws = true -> sanitize ws = ws.
Proof.
  induction ws as [|c ws IH]; simpl; intros H; [reflexivity|].
  apply andb_true_iff in H as [Hc H].
  now rewrite (sanitize_char_space c Hc), (IH H).
Qed.

Lemma split_sanitize_lstrip (s : str) :
  split (sanitize (lstrip isspace s)) = split (sanitize s).
Proof.
  induction s as [|c s IH]; simpl; [reflexivity|].
  destruct (isspace c) eqn:E; [|reflexivity].
  unfold split in *. simpl. now rewrite (sanitize_char_space c E), E.
Qed.

Lemma split_sanitize_rstrip (s : str) :
  split (sanitize (rstrip isspace s)) = split (sanitize s).
Proof.
  destruct (rstrip_decompose s) as (ws & E & H).
  rewrite E at 2. rewrite sanitize_app, (sanitize_whitespace ws H).
  unfold split. now rewrite split_from_app_whitespace.
Qed.

Lemma split_sanitize_strip (s : str) :
  split (sanitize (strip s)) = split (sanitize s).
Proof.
  unfold strip, strip_chars.
  now rewrite split_sanitize_rstrip, split_sanitize_lstrip.
Qed.

Lemma join_cons_head (c : char) (parts : list str) :
  parts <> [] -> join [space] (cons_head c parts) = c :: join [space] parts.
Proof.
  destruct parts as [|p [|q parts]]; [contradiction | reflexivity..].
Qed.

Lemma join_nil_cons (parts : list str) :
  parts <> [] -> join [space] ([] :: parts) = space :: join [space] parts.
Proof. destruct parts; [contradiction | reflexivity]. Qed.

Lemma split_from_step (c : char) (a b : str) :
  (forall cur, split_from cur a = split_from cur b) ->
  forall cur, split_from cur (c :: a) = split_from cur (c :: b).
Proof. intros H cur. simpl. now rewrite !H. Qed.

(** Joining the pieces of [re_split] by a space gives the words of the
    text: a match is whitespace, and so is the space put in its place. *)
Lemma split_sanitize_re_split (text : str) :
  (forall a cur,
     split_from cur (sanitize (join [space] (re_split_from false a text)))
     = split_from cur (sanitize text))
  /\ split_from [] (sanitize (join [space] (re_split_from true false text)))
     = split_from [] (sanitize text).
Proof.
  induction text as [|c text [IHa IHb]]; [split; reflexivity|].
  assert (Hcons : forall a cur,
    split_from cur (sanitize (join [space]
      (cons_head c (re_split_from false a text))))
    = split_from cur (sanitize (c :: text))).
  { intros a cur.
    rewrite join_cons_head by apply re_split_from_not_nil.
    apply (split_from_step (sanitize_char c)). apply IHa. }
  split.
  - intros a cur. cbn [re_split_from].
    destruct (isspace c) eqn:E; [|apply Hcons].
    destruct a; [|apply Hcons].
    rewrite join_nil_cons by apply re_split_from_not_nil.
    cbn [sanitize map split_from].
    rewrite (sanitize_char_space c E), E.
    change (sanitize_char space) with space. rewrite isspace_space.
    fold (sanitize (join [space] (re_split_from true false text))).
    fold (sanitize text). now rewrite IHb.
  - cbn [re_split_from]. destruct (isspace c) eqn:E; [|apply Hcons].
    cbn [sanitize map split_from]. rewrite (sanitize_char_space c E), E.
    exact IHb.
Qed.

Section SegmentedTokens.

Variable U : unicode_tables.

Lemma clean_tokens_strip (s : str) :
  clean_tokens U (strip s) = clean_tokens U s.
Proof. unfold clean_tokens. now rewrite split_sanitize_strip. Qed.

Lemma clean_tokens_re_split (text : str) :
  clean_tokens U (join [space] (re_split text)) = clean_tokens U text.
Proof.
  unfold clean_tokens, split, re_split.
  now rewrite (proj1 (split_sanitize_re_split text)).
Qed.

Lemma clean_tokens_kept_parts (parts : list str) :
  concat (map (clean_tokens U)
    (map strip (filter (fun p => negb (is_empty (strip p))) parts)))
  = concat (map (clean_tokens U) parts).
Proof.
  induction parts as [|p parts IH]; [reflexivity|]. cbn [filter map concat].
  rewrite <- IH, <- (clean_tokens_strip p).
  destruct (is_empty (strip p)) eqn:E; cbn [negb map concat]; [|reflexivity].
  apply is_empty_true in E. now rewrite E.
Qed.

(** The sentences of a text carry exactly its tokens. *)
Lemma clean_tokens_split_sentences (text : str) :
  clean_tokens U (join [space] (split_sentences text)) = clean_tokens U text.
Proof.
  rewrite <- (clean_tokens_re_split text), !clean_tokens_join.
  apply clean_tokens_kept_parts.
Qed.

Lemma clean_tokens_whitespace (text : str) :
  forallb isspace text = true -> clean_tokens U text = [].
Proof.
  intros H. unfold clean_tokens, split.
  now rewrite (sanitize_whitespace text H), (split_from_whitespace text H).
Qed.

End SegmentedTokens.

(** * The properties of the specification *)

Section Claims.

Variable U : unicode_tables.
Variable F : float_ops.

(** The sort compares scores with [<] on doubles that are not NaN: a
    strict weak order. *)
Hypothesis float_lt_asym :
  forall a b, float_lt F a b = true -> float_lt F b a = false.
Hypothesis float_lt_negtrans :
  forall a b c,
    float_lt F a b = false -> float_lt F b c = false -> float_lt F a c = false.

(** Dividing an integer [S >= n] by [n ** 0.8], [n >= 1], gives a double
    above zero (the quotient is at least 1 up to rounding). *)
Hypothesis float_score_pos :
  forall S n, 1 <= n <= S ->
    float_lt F (float_of_int F 0)
      (float_div F (float_of_int F S)
         (float_pow F (float_of_int F n) (float_0_8 F))) = true.

(** *** Tokenizer *)

(** C5: [clean_tokens] computes the four-step algorithm of the
    specification (replace every code point outside [[A-Za-z0-9\s']] by a
    space, split on whitespace runs, lowercase and strip apostrophes, drop
    the empty, all-digit and stopword pieces), in input order, and
    [clean_tokens("Hello, World! 123 the AND")] is [["hello", "world"]]. *)
Theorem clean_tokens_four_steps :
  (forall text, clean_tokens U text = tokenize_spec text)
  /\ clean_tokens U (lit "Hello, World! 123 the AND")
     = [lit "hello"; lit "world"]
  /\ clean_tokens U (lit "'Tis the SEASON'S ''quoted'' 42 A1 ' don't")
     = [lit "tis"; lit "season's"; lit "quoted"; lit "a1"; lit "don't"].
Proof.
  split; [apply clean_tokens_refines_spec|].
  rewrite !(clean_tokens_tables U ascii_tables). split; reflexivity.
Qed.

Lemma ascii_digits_isdigit (w : str) :
  forallb is_ascii_digit w = true -> forallb (isdigit_char U) w = true.
Proof.
  induction w as [|c w IH]; simpl; [reflexivity|]. intros H.
  apply andb_true_iff in H as [Hc Hw].
  rewrite (isdigit_char_ascii U c (ascii_digit_is_ascii c Hc)), Hc.
  now apply IH.
Qed.

(** C6: no token returned by [clean_tokens] is a stopword, none consists
    of digits only, none is empty. *)
Theorem clean_tokens_significant (text : str) :
  Forall (fun t => ~ In t STOPWORDS
                   /\ forallb is_ascii_digit t = false
                   /\ isdigit U t = false
                   /\ t <> [])
    (clean_tokens U text).
Proof.
  apply Forall_forall. intros t Ht. apply kept_token in Ht.
  unfold keep_token in Ht.
  apply andb_true_iff in Ht as [Ht Hd]. apply andb_true_iff in Ht as [He Hs].
  apply negb_true_iff in He, Hs, Hd.
  assert (Hne : t <> []) by (intros ->; discriminate).
  repeat split; try assumption.
  - intros H. apply in_stopwords_In in H. congruence.
  - destruct (forallb is_ascii_digit t) eqn:E; [|reflexivity].
    apply ascii_digits_isdigit in E. unfold isdigit in Hd.
    rewrite He, E in Hd. discriminate.
Qed.

(** *** Keyword ranker *)

(** C3: for [n >= 0], [keyword_top_n(text, n)] has at most [n] pairs; the
    count of each pair is the number of occurrences of its token among
    [clean_tokens(text)]; the counts descend; among equal counts the token
    seen first comes first; and [n = 0] gives the empty list. *)
Theorem keyword_top_n_ranking (text : str) (n : Z) :
  (0 <= n)%Z ->
  let toks := clean_tokens U text in
  let top := keyword_top_n U text n in
  (Z.of_nat (length top) <= n)%Z
  /\ (forall t c, In (t, c) top -> c = occurrences toks t)
  /\ StronglySorted (fun a b => snd b <= snd a) top
  /\ StronglySorted
       (fun a b => snd a = snd b ->
                   first_index (fst a) toks < first_index (fst b) toks) top
  /\ (n = 0%Z -> top = []).
Proof.
  intros Hn toks top. unfold top, keyword_top_n. fold toks.
  pose proof (most_common_ranked toks n) as R.
  split; [now apply most_common_length|].
  split; [intros t c H; now apply most_common_In, Counter_items in H|].
  split; [|split].
  - revert R. apply StronglySorted_weaken.
    intros a b _ _ [H|[H _]]; lia.
  - revert R. apply StronglySorted_weaken.
    intros a b _ _ [H|[_ H]] E; [lia | exact H].
  - now intros ->.
Qed.

(** *** Sentence segmenter *)

(** C7: the sentences of [split_sentences(text)], concatenated, hold the
    non-whitespace code points of [text] in their order, and no sentence is
    empty after trimming. *)
Theorem split_sentences_reconstructs (text : str) :
  content (concat (split_sentences text)) = content text
  /\ Forall (fun s => strip s <> []) (split_sentences text).
Proof.
  split; [apply split_sentences_content|].
  apply Forall_forall. apply split_sentences_trimmed.
Qed.

(** C8: a text in which no [.], [!] or [?] is followed by whitespace and
    which has a non-whitespace code point is one sentence, the trimmed
    text; a text of whitespace only (or empty) has no sentence. *)
Theorem split_sentences_unterminated (text : str) :
  (term_then_space text = false ->
   existsb (fun c => negb (isspace c)) text = true ->
   split_sentences text = [strip text])
  /\ (forallb isspace text = true -> split_sentences text = []).
Proof.
  split.
  - intros Hm Hc. rewrite (split_sentences_no_match text Hm).
    destruct (is_empty (strip text)) eqn:E; [|reflexivity]. exfalso.
    apply is_empty_true, strip_nil_iff, content_nil_iff in E.
    apply existsb_exists in Hc as (c & Hin & Hc).
    rewrite forallb_forall in E. rewrite (E c Hin) in Hc. discriminate.
  - apply split_sentences_nil_iff.
Qed.

(** *** Sentence scorer *)

(** C4: [score_sentences] returns nothing when the frequency table of the
    joined sentences is empty; it leaves out the sentences without tokens;
    it gives each other sentence the score (sum of the global frequencies
    of its tokens) / (number of its tokens ** 0.8); and it returns the
    pairs by score descending, sentences with tied scores in the order they
    came in. *)
Theorem score_sentences_ranking (sentences : list str) :
  let all_words := clean_tokens U (join [space] sentences) in
  let score_of (s : str) : float F :=
    let toks := clean_tokens U s in
    float_div F
      (float_of_int F (list_sum (map (occurrences all_words) toks)))
      (float_pow F (float_of_int F (length toks)) (float_0_8 F)) in
  let scored :=
    map (fun s => (s, score_of s))
      (filter (fun s => negb (is_nil (clean_tokens U s))) sentences) in
  let ranked := score_sentences U F sentences in
  (Counter all_words = [] -> ranked = [])
  /\ Permutation scored ranked
  /\ StronglySorted (fun a b => float_lt F (snd a) (snd b) = false) ranked
  /\ (forall v,
        filter (fun p => tied (float_lt F) (snd p) v) ranked
        = filter (fun p => tied (float_lt F) (snd p) v) scored).
Proof.
  intros all_words score_of scored ranked.
  assert (E : scored = scored_sentences U F (Counter all_words) sentences).
  { unfold scored, scored_sentences. apply map_ext. intros s.
    unfold score_of, sentence_score.
    rewrite (map_ext (occurrences all_words)
               (counter_get (Counter all_words))); [reflexivity|].
    intros t. symmetry. apply counter_get_Counter. }
  assert (R : ranked = sort_desc (float_lt F) snd scored).
  { rewrite E. apply score_sentences_sorted_scored. }
  split; [|rewrite R; split; [|split]].
  - intros H. apply Counter_nil_iff in H. unfold ranked, score_sentences.
    change (clean_tokens U (join [space] sentences)) with all_words.
    now rewrite H.
  - symmetry. apply sort_desc_perm.
  - now apply sort_desc_sorted.
  - intros v. now apply sort_desc_stable.
Qed.

(** C10: the tokens of strings joined by a space are the tokens of each
    string, one after the other; so every token of a scored sentence has a
    global frequency of at least 1, and every score is above zero. *)
Theorem clean_tokens_join_scores_positive (sentences : list str) :
  clean_tokens U (join [space] sentences)
  = concat (map (clean_tokens U) sentences)
  /\ forall s sc, In (s, sc) (score_sentences U F sentences) ->
       (forall t, In t (clean_tokens U s) ->
          1 <= counter_get
                 (Counter (clean_tokens U (join [space] sentences))) t)
       /\ float_lt F (float_of_int F 0) sc = true.
Proof.
  split; [apply clean_tokens_join|]. intros s sc H.
  apply score_sentences_In in H as (Hs & Ht & ->).
  assert (Hf : forall t, In t (clean_tokens U s) ->
            1 <= counter_get
                   (Counter (clean_tokens U (join [space] sentences))) t).
  { intros t. now apply token_frequency. }
  split; [exact Hf|]. unfold sentence_score. apply float_score_pos.
  split; [|now apply list_sum_ge_length].
  destruct (clean_tokens U s); [contradiction | simpl; lia].
Qed.

(** *** Summary selector *)

Lemma bullet_sentence_add_bullet (s : str) : bullet_sentence (add_bullet s) = s.
Proof. reflexivity. Qed.

Lemma slice_to_nonneg (T : Type) (k : Z) (l : list T) :
  (0 <= k)%Z -> slice_to k l = firstn (Z.to_nat k) l.
Proof.
  intros H. unfold slice_to.
  destruct (k <? 0)%Z eqn:E; [apply Z.ltb_lt in E; lia | reflexivity].
Qed.

Lemma extract_walk_empty (text : str) (k min_len max_len : Z) :
  select_loop U F k min_len max_len
    (score_sentences U F (split_sentences text)) [] [] = [] ->
  extract_summary_bullets U F text k min_len max_len
  = map add_bullet (slice_to k (split_sentences text)).
Proof.
  intros H. unfold extract_summary_bullets. rewrite H. simpl.
  destruct (split_sentences text); [|reflexivity].
  unfold slice_to. destruct (k <? 0)%Z; now rewrite firstn_nil.
Qed.

Lemma extract_walk_accepts (text : str) (k min_len max_len : Z) :
  select_loop U F k min_len max_len
    (score_sentences U F (split_sentences text)) [] [] <> [] ->
  extract_summary_bullets U F text k min_len max_len
  = select_loop U F k min_len max_len
      (score_sentences U F (split_sentences text)) [] [].
Proof.
  intros H. unfold extract_summary_bullets.
  now destruct (select_loop U F k min_len max_len _ [] []).
Qed.

(** When every sentence fails the length filter the summary is the
    fallback. *)
Lemma extract_all_rejected (text : str) (k min_len max_len : Z) :
  Forall (fun s => ~ length_ok min_len max_len s) (split_sentences text) ->
  extract_summary_bullets U F text k min_len max_len
  = map add_bullet (slice_to k (split_sentences text)).
Proof.
  intros H. apply extract_walk_empty, select_loop_nil_iff.
  apply Forall_forall. intros [s sc] Hp. simpl.
  apply score_sentences_In in Hp as [Hs _].
  rewrite Forall_forall in H. now apply H.
Qed.

(** C1, as corrected: for [k >= 1] the summary has at most [k] bullets,
    and when some ranked sentence passes the length filter (the fallback
    is not taken) no two bullets come from sentences with the same
    signature, the lowercased first 40 code points. *)
Theorem extract_summary_bullets_bounded (text : str) (k min_len max_len : Z) :
  (1 <= k)%Z ->
  let bullets := extract_summary_bullets U F text k min_len max_len in
  (Z.of_nat (length bullets) <= k)%Z
  /\ (Exists (fun p => length_ok min_len max_len (fst p))
        (score_sentences U F (split_sentences text)) ->
      NoDup (map (fun b => signature U (bullet_sentence b)) bullets)).
Proof.
  intros Hk bullets.
  destruct (select_loop_accepts U F k min_len max_len
              (score_sentences U F (split_sentences text)) [] [])
    as (acc & E & ND & _ & Hlen).
  { intros x. reflexivity. }
  { constructor. }
  simpl in E, ND, Hlen.
  destruct acc as [|a acc].
  - simpl in E. unfold bullets. rewrite (extract_walk_empty _ _ _ _ E). split.
    + rewrite length_map, slice_to_nonneg by lia.
      pose proof (firstn_le_length (Z.to_nat k) (split_sentences text)). lia.
    + intros Hex. exfalso. apply select_loop_nil_iff in E.
      apply Exists_exists in Hex as (p & Hp & Hok).
      rewrite Forall_forall in E. exact (E p Hp Hok).
  - unfold bullets. rewrite extract_walk_accepts, E
      by (rewrite E; discriminate).
    split.
    + rewrite length_map. apply Hlen. lia.
    + intros _. rewrite map_map.
      rewrite (map_ext _ (signature U)); [exact ND|].
      intros s. now rewrite bullet_sentence_add_bullet.
Qed.

(** C2: for [k >= 0], when the text has a sentence and the walk accepts
    none, the summary is the first [k] sentences in document order, each
    behind the bullet marker (U+2022 and a space), unfiltered; the walk
    accepts none exactly when no ranked sentence passes the length filter;
    the summary of ["Short. Also short."] for [k = 3] is
    [["• Short.", "• Also short."]]; and a text without sentences has an
    empty summary. *)
Theorem extract_summary_bullets_fallback (text : str) (k min_len max_len : Z) :
  (0 <= k)%Z ->
  let sents := split_sentences text in
  let ranked := score_sentences U F sents in
  (sents <> [] ->
   select_loop U F k min_len max_len ranked [] [] = [] ->
   extract_summary_bullets U F text k min_len max_len
   = map (fun s => 0x2022%N :: 0x20%N :: s) (firstn (Z.to_nat k) sents))
  /\ (select_loop U F k min_len max_len ranked [] [] = []
      <-> Forall (fun p => ~ (min_len <= Z.of_nat (length (fst p)) <= max_len)%Z)
            ranked)
  /\ extract_summary_bullets U F (lit "Short. Also short.") 3 40 220
     = [0x2022%N :: 0x20%N :: lit "Short.";
        0x2022%N :: 0x20%N :: lit "Also short."]
  /\ (sents = [] ->
      extract_summary_bullets U F text k min_len max_len = []).
Proof.
  intros Hk sents ranked. split; [|split; [|split]].
  - intros _ H. unfold sents.
    rewrite (extract_walk_empty _ _ _ _ H), slice_to_nonneg by exact Hk.
    reflexivity.
  - apply select_loop_nil_iff.
  - rewrite extract_all_rejected; [reflexivity|].
    repeat constructor; unfold length_ok; simpl; lia.
  - unfold sents. intros H. unfold extract_summary_bullets. now rewrite H.
Qed.

(** *** Degenerate inputs *)

(** C9, as corrected: [clean_tokens], [keyword_top_n] and
    [score_sentences] return the empty list on every input without tokens,
    the empty and the whitespace-only string among them; [split_sentences]
    and [extract_summary_bullets] return the empty list on every text
    without sentences, that is on the empty and the whitespace-only
    strings; and [keyword_top_n] of the empty string, for [n = 5], is empty. *)
Theorem degenerate_inputs_empty (text : str) (sentences : list str)
    (n k min_len max_len : Z) :
  (clean_tokens U text = [] ->
   keyword_top_n U text n = []
   /\ score_sentences U F (split_sentences text) = [])
  /\ (clean_tokens U (join [space] sentences) = [] ->
      score_sentences U F sentences = [])
  /\ (forallb isspace text = true ->
      clean_tokens U text = []
      /\ split_sentences text = []
      /\ extract_summary_bullets U F text k min_len max_len = [])
  /\ (split_sentences text = [] <-> forallb isspace text = true)
  /\ keyword_top_n U [] 5 = [].
Proof.
  assert (S : forall l, clean_tokens U (join [space] l) = [] ->
                        score_sentences U F l = []).
  { intros l H. unfold score_sentences. now rewrite H. }
  split; [|split; [|split; [|split]]].
  - intros H. split.
    + unfold keyword_top_n, most_common. rewrite H. simpl.
      destruct (n <? 0)%Z; [reflexivity | apply firstn_nil].
    + apply S. now rewrite clean_tokens_split_sentences.
  - apply S.
  - intros H. split; [now apply clean_tokens_whitespace|].
    assert (E : split_sentences text = [])
      by now apply split_sentences_nil_iff.
    split; [exact E|]. unfold extract_summary_bullets. now rewrite E.
  - apply split_sentences_nil_iff.
  - reflexivity.
Qed.

End Claims.

(** * The properties on concrete inputs *)

Lemma keyword_top_n_ranking_example :
  (0 <= 3)%Z
  /\ keyword_top_n ascii_tables keywords_text 3
     = [(lit "c", 3); (lit "b", 2); (lit "a1", 2)]
  /\ (Z.of_nat (length (keyword_top_n ascii_tables keywords_text 3)) <= 3)%Z
  /\ (forall t c, In (t, c) (keyword_top_n ascii_tables keywords_text 3) ->
        c = occurrences (clean_tokens ascii_tables keywords_text) t).
Proof.
  assert (H : (0 <= 3)%Z) by lia.
  split; [exact H|]. split; [reflexivity|].
  destruct (keyword_top_n_ranking ascii_tables keywords_text 3 H)
    as (Hlen & Hcount & _).
  split; [exact Hlen | exact Hcount].
Defined.

Lemma split_sentences_unterminated_example :
  term_then_space plain_text = false
  /\ existsb (fun c => negb (isspace c)) plain_text = true
  /\ split_sentences plain_text = [lit "no terminal punctuation here"]
  /\ forallb isspace (lit "   ") = true
  /\ split_sentences (lit "   ") = [].
Proof.
  assert (H1 : term_then_space plain_text = false) by reflexivity.
  assert (H2 : existsb (fun c => negb (isspace c)) plain_text = true)
    by reflexivity.
  assert (H3 : forallb isspace (lit "   ") = true) by reflexivity.
  split; [exact H1|]. split; [exact H2|].
  split; [exact (proj1 (split_sentences_unterminated plain_text) H1 H2)|].
  split; [exact H3|].
  exact (proj2 (split_sentences_unterminated (lit "   ")) H3).
Defined.

Lemma score_sentences_ranking_example :
  map fst (score_sentences ascii_tables rational_floats cat_sentences)
  = [lit "The cat sat on the mat."; lit "The cat also sat on the rug.";
     lit "Birds fly."]
  /\ StronglySorted
       (fun a b => float_lt rational_floats (snd a) (snd b) = false)
       (score_sentences ascii_tables rational_floats cat_sentences).
Proof.
  split; [reflexivity|].
  exact (proj1 (proj2 (proj2
    (score_sentences_ranking ascii_tables rational_floats
       rational_lt_asym rational_lt_negtrans cat_sentences)))).
Defined.

Lemma clean_tokens_join_scores_positive_cats :
  clean_tokens ascii_tables (join [space] cat_sentences)
  = concat (map (clean_tokens ascii_tables) cat_sentences)
  /\ Forall
       (fun p => float_lt rational_floats (float_of_int rational_floats 0)
                   (snd p) = true)
       (score_sentences ascii_tables rational_floats cat_sentences).
Proof.
  pose proof (clean_tokens_join_scores_positive ascii_tables rational_floats
                rational_score_pos cat_sentences) as [Hjoin Hpos].
  split; [exact Hjoin|]. apply Forall_forall. intros [s sc] H.
  exact (proj2 (Hpos s sc H)).
Defined.

Lemma extract_summary_bullets_bounded_example :
  (1 <= 2)%Z
  /\ extract_summary_bullets ascii_tables rational_floats fox_text 2 40 220
     = [add_bullet fox_sentence;
        add_bullet
          (lit "A second long sentence about the quick brown fox appears here!")]
  /\ (Z.of_nat (length
        (extract_summary_bullets ascii_tables rational_floats fox_text 2 40 220))
      <= 2)%Z
  /\ NoDup (map (fun b => signature ascii_tables (bullet_sentence b))
        (extract_summary_bullets ascii_tables rational_floats fox_text 2 40 220)).
Proof.
  assert (H : (1 <= 2)%Z) by lia.
  assert (Hex : Exists (fun p => length_ok 40 220 (fst p))
            (score_sentences ascii_tables rational_floats
               (split_sentences fox_text))).
  { apply Exists_exists. exists (fox_sentence, Qmake 17 7). split.
    - vm_compute. left. reflexivity.
    - unfold length_ok. simpl. lia. }
  destruct (extract_summary_bullets_bounded ascii_tables rational_floats
              fox_text 2 40 220 H) as [Hlen Hdup].
  split; [exact H|]. split; [reflexivity|].
  split; [exact Hlen | exact (Hdup Hex)].
Defined.

Lemma extract_summary_bullets_fallback_example :
  (0 <= 3)%Z
  /\ split_sentences short_text <> []
  /\ select_loop ascii_tables rational_floats 3 40 220
       (score_sentences ascii_tables rational_floats
          (split_sentences short_text)) [] [] = []
  /\ extract_summary_bullets ascii_tables rational_floats short_text 3 40 220
     = [0x2022%N :: 0x20%N :: lit "Short.";
        0x2022%N :: 0x20%N :: lit "Also short."].
Proof.
  assert (H0 : (0 <= 3)%Z) by lia.
  assert (H1 : split_sentences short_text <> []) by discriminate.
  assert (H2 : select_loop ascii_tables rational_floats 3 40 220
                 (score_sentences ascii_tables rational_floats
                    (split_sentences short_text)) [] [] = [])
    by reflexivity.
  split; [exact H0|]. split; [exact H1|]. split; [exact H2|].
  exact (proj1 (extract_summary_bullets_fallback ascii_tables rational_floats
                  short_text 3 40 220 H0) H1 H2).
Defined.

Lemma degenerate_inputs_empty_example :
  clean_tokens ascii_tables stopwords_text = []
  /\ keyword_top_n ascii_tables stopwords_text 5 = []
  /\ score_sentences ascii_tables rational_floats
       (split_sentences stopwords_text) = []
  /\ forallb isspace (lit "   ") = true
  /\ split_sentences (lit "   ") = []
  /\ extract_summary_bullets ascii_tables rational_floats (lit "   ") 5 40 220
     = [].
Proof.
  assert (H1 : clean_tokens ascii_tables stopwords_text = []) by reflexivity.
  assert (H2 : forallb isspace (lit "   ") = true) by reflexivity.
  destruct (degenerate_inputs_empty ascii_tables rational_floats
              stopwords_text [] 5 5 40 220) as (Ha & _).
  destruct (degenerate_inputs_empty ascii_tables rational_floats
              (lit "   ") [] 5 5 40 220) as (_ & _ & Hb & _).
  destruct (Ha H1) as [Hk Hs]. destruct (Hb H2) as (_ & Hsp & Hex).
  split; [exact H1|]. split; [exact Hk|]. split; [exact Hs|].
  split; [exact H2|]. split; [exact Hsp | exact Hex].
Defined.

(** * Where the code departs from the specification *)

Section Departures.

Variable U : unicode_tables.
Variable F : float_ops.

(** The fallback applies no deduplication: two equal sentences that are too
    short both become bullets. *)
Lemma fallback_keeps_duplicates :
  extract_summary_bullets U F (lit "Short. Short.") 2 40 220
  = [add_bullet (lit "Short."); add_bullet (lit "Short.")].
Proof.
  rewrite extract_all_rejected; [reflexivity|].
  repeat constructor; unfold length_ok; simpl; lia.
Qed.

(** The walk tests [len(bullets) >= k] only after it has appended a bullet:
    with [k = 0] it returns one bullet. *)
Lemma zero_k_returns_a_bullet :
  extract_summary_bullets U F fox_sentence 0 40 220 = [add_bullet fox_sentence].
Proof. vm_compute. reflexivity. Qed.

(** A text of stopwords has no token, yet it is a sentence, and the
    fallback makes a bullet of it. *)
Lemma stopwords_only_summary :
  clean_tokens U stopwords_text = []
  /\ split_sentences stopwords_text = [stopwords_text]
  /\ extract_summary_bullets U F stopwords_text 5 40 220
     = [add_bullet stopwords_text].
Proof.
  split; [|split]; [now rewrite (clean_tokens_tables U ascii_tables)
                   | reflexivity |].
  rewrite extract_all_rejected; [reflexivity|].
  repeat constructor; unfold length_ok; simpl; lia.
Qed.

End Departures.

(** C1 as the specification states it fails: the summary of
    ["Short. Short."] for [k = 2] has two bullets with the same
    signature. *)
Lemma fallback_bullets_share_signature :
  (0 <= 2)%Z
  /\ extract_summary_bullets ascii_tables rational_floats
       (lit "Short. Short.") 2 40 220
     = [add_bullet (lit "Short."); add_bullet (lit "Short.")]
  /\ ~ NoDup (map (fun b => signature ascii_tables (bullet_sentence b))
           (extract_summary_bullets ascii_tables rational_floats
              (lit "Short. Short.") 2 40 220)).
Proof.
  split; [lia|]. rewrite fallback_keeps_duplicates. split; [reflexivity|].
  intros H. inversion H as [|? ? Hin _]; subst. apply Hin. now left.
Qed.

(** C9 as the specification states it fails: ["the and."] has no token,
    and neither [split_sentences] nor [extract_summary_bullets] returns the
    empty list on it. *)
Lemma no_tokens_yet_a_summary :
  clean_tokens ascii_tables stopwords_text = []
  /\ split_sentences stopwords_text <> []
  /\ extract_summary_bullets ascii_tables rational_floats stopwords_text
       5 40 220 <> [].
Proof.
  destruct (stopwords_only_summary ascii_tables rational_floats)
    as (Ht & Hs & He).
  rewrite Hs, He. split; [exact Ht|]. split; discriminate.
Qed.

(** * Further properties of the code *)

(** ** Duration display *)

Lemma as_string_lit (x : string) : as_string (lit x) = x.
Proof.
  unfold as_string, lit. rewrite map_map.
  rewrite (map_ext _ (fun a => a)) by apply ascii_N_embedding.
  rewrite map_id. apply string_of_list_ascii_of_string.
Qed.

Lemma read_format_d (z : Z) : read_d (format_d z) = Some z.
Proof.
  unfold read_d, format_d.
  rewrite as_string_lit, DecimalString.NilEmpty.isi. simpl.
  now rewrite DecimalZ.of_to.
Qed.

Lemma lit_String (a : ascii) (x : string) :
  lit (String a x) = N_of_ascii a :: lit x.
Proof. reflexivity. Qed.

Lemma string_of_uint_no_colon (d : Decimal.uint) :
  Forall not_colon (lit (DecimalString.NilEmpty.string_of_uint d)).
Proof.
  induction d; simpl; try rewrite lit_String; constructor;
    (reflexivity || assumption).
Qed.

Lemma format_d_no_colon (z : Z) : Forall not_colon (format_d z).
Proof.
  unfold format_d. destruct (Z.to_int z) as [d|d]; simpl.
  - apply string_of_uint_no_colon.
  - rewrite lit_String. constructor; [reflexivity|].
    apply string_of_uint_no_colon.
Qed.

Lemma format_02d_no_colon (z : Z) : Forall not_colon (format_02d z).
Proof.
  unfold format_02d. destruct (Nat.ltb _ 2).
  - constructor; [reflexivity | apply format_d_no_colon].
  - apply format_d_no_colon.
Qed.

Lemma fields_no_colon (a : str) : Forall not_colon a -> fields a = [a].
Proof.
  induction 1 as [|c a Hc Ha IH]; simpl; [reflexivity|].
  unfold not_colon in Hc. now rewrite Hc, IH.
Qed.

Lemma fields_app_colon (a b : str) :
  Forall not_colon a -> fields (a ++ colon :: b) = a :: fields b.
Proof.
  induction 1 as [|c a Hc Ha IH]; simpl; [reflexivity|].
  unfold not_colon in Hc. now rewrite Hc, IH.
Qed.

Lemma read_format_02d (z : Z) :
  (0 <= z < 60)%Z -> read_d (format_02d z) = Some z.
Proof.
  intros H. rewrite <- (Z2Nat.id z) by lia.
  assert (Hn : Z.to_nat z < 60) by lia.
  generalize dependent (Z.to_nat z). clear. intros n Hn.
  do 60 (destruct n as [|n]; [reflexivity|]). lia.
Qed.

(** X1: a duration can be read back from its display: whatever the integer
    [sec], negative ones included, the fields of [seconds_to_hms sec] give
    [sec] again; so two different durations never display alike. *)
Theorem seconds_to_hms_read_back (sec : Z) :
  parse_hms (seconds_to_hms sec) = Some sec
  /\ forall sec', seconds_to_hms sec' = seconds_to_hms sec -> sec' = sec.
Proof.
  assert (R : forall z, parse_hms (seconds_to_hms z) = Some z).
  { intros z. unfold seconds_to_hms, parse_hms.
    assert (Hm : (0 <= (z mod 3600) / 60 < 60)%Z).
    { pose proof (Z.mod_pos_bound z 3600).
      split; [apply Z.div_pos; lia | apply Z.div_lt_upper_bound; lia]. }
    assert (Hs : (0 <= z mod 60 < 60)%Z) by (apply Z.mod_pos_bound; lia).
    destruct (z / 3600 =? 0)%Z eqn:E.
    - simpl app. rewrite fields_app_colon by apply format_d_no_colon.
      rewrite fields_no_colon by apply format_02d_no_colon.
      simpl map. rewrite read_format_d, (read_format_02d _ Hs).
      apply Z.eqb_eq in E. f_equal.
      revert E Hm Hs. Z.to_euclidean_division_equations. lia.
    - simpl app. rewrite fields_app_colon by apply format_d_no_colon.
      rewrite fields_app_colon by apply format_02d_no_colon.
      rewrite fields_no_colon by apply format_02d_no_colon.
      simpl map.
      rewrite read_format_d, (read_format_02d _ Hm), (read_format_02d _ Hs).
      f_equal. clear E. revert Hm Hs.
      Z.to_euclidean_division_equations. lia. }
  split; [apply R|]. intros sec' E.
  pose proof (R sec') as H. rewrite E, R in H. congruence.
Qed.

Lemma format_02d_length (z : Z) :
  (0 <= z < 60)%Z -> length (format_02d z) = 2.
Proof.
  intros H. rewrite <- (Z2Nat.id z) by lia.
  assert (Hn : Z.to_nat z < 60) by lia.
  generalize dependent (Z.to_nat z). clear. intros n Hn.
  do 60 (destruct n as [|n]; [reflexivity|]). lia.
Qed.

(** X2: the display has two fields, minutes and seconds, exactly for
    [0 <= sec < 3600], and three otherwise; every field after the first is
    two characters wide. *)
Theorem seconds_to_hms_fields (sec : Z) :
  length (fields (seconds_to_hms sec))
  = (if (0 <=? sec)%Z && (sec <? 3600)%Z then 2 else 3)
  /\ Forall (fun f => length f = 2) (tl (fields (seconds_to_hms sec))).
Proof.
  unfold seconds_to_hms.
  assert (Hm : (0 <= (sec mod 3600) / 60 < 60)%Z).
  { pose proof (Z.mod_pos_bound sec 3600).
    split; [apply Z.div_pos; lia | apply Z.div_lt_upper_bound; lia]. }
  assert (Hs : (0 <= sec mod 60 < 60)%Z) by (apply Z.mod_pos_bound; lia).
  assert (Hh : (sec / 3600 =? 0)%Z = (0 <=? sec)%Z && (sec <? 3600)%Z).
  { destruct (sec / 3600 =? 0)%Z eqn:E; symmetry.
    - apply Z.eqb_eq in E. apply andb_true_iff.
      rewrite Z.leb_le, Z.ltb_lt. revert E.
      Z.to_euclidean_division_equations. lia.
    - apply Z.eqb_neq in E. apply andb_false_iff.
      rewrite Z.leb_gt, Z.ltb_ge. revert E.
      Z.to_euclidean_division_equations. lia. }
  rewrite <- Hh. destruct (sec / 3600 =? 0)%Z; simpl app.
  - rewrite fields_app_colon by apply format_d_no_colon.
    rewrite fields_no_colon by apply format_02d_no_colon.
    split; [reflexivity|]. simpl. repeat constructor.
    now apply format_02d_length.
  - rewrite fields_app_colon by apply format_d_no_colon.
    rewrite fields_app_colon by apply format_02d_no_colon.
    rewrite fields_no_colon by apply format_02d_no_colon.
    split; [reflexivity|]. simpl.
    repeat constructor; now apply format_02d_length.
Qed.

(** ** Video id *)

Lemma starts_with_app (p s : str) : starts_with p (p ++ s) = Some s.
Proof.
  induction p as [|c p IH]; simpl; [reflexivity|].
  now rewrite N.eqb_refl.
Qed.

Lemma starts_with_Some (p s r : str) :
  starts_with p s = Some r -> s = p ++ r.
Proof.
  revert s; induction p as [|c p IH]; intros s; simpl.
  - congruence.
  - destruct s as [|d s]; [discriminate|].
    destruct (N.eqb c d) eqn:E; [|discriminate].
    apply N.eqb_eq in E. subst d. intros H. f_equal. now apply IH.
Qed.

Lemma firstn_id_app (id post : str) :
  length id = 11 -> firstn 11 (id ++ post) = id.
Proof.
  intros H. rewrite firstn_app, (firstn_all2 (n := 11) id) by lia.
  replace (11 - length id) with 0 by lia. apply app_nil_r.
Qed.

Lemma match_id_at_Some (marker s id : str) :
  match_id_at marker s = Some id <->
  (exists post, s = marker ++ id ++ post) /\ valid_id id.
Proof.
  unfold match_id_at, valid_id. split.
  - destruct (starts_with marker s) as [rest|] eqn:E; [|discriminate].
    apply starts_with_Some in E.
    destruct (Nat.eqb (length (firstn 11 rest)) 11
              && forallb is_id_char (firstn 11 rest)) eqn:V; [|discriminate].
    intros H. assert (Hid : firstn 11 rest = id) by congruence.
    clear H. subst id.
    apply andb_true_iff in V as [Hl Hc]. apply Nat.eqb_eq in Hl.
    split; [|now split]. exists (skipn 11 rest).
    rewrite E. f_equal. symmetry. apply firstn_skipn.
  - intros [[post ->] [Hl Hc]].
    rewrite starts_with_app, (firstn_id_app id post Hl), Hl, Hc.
    reflexivity.
Qed.

Lemma re_search_id_Some (marker s id : str) :
  re_search_id marker s = Some id ->
  (exists pre post, s = pre ++ marker ++ id ++ post) /\ valid_id id.
Proof.
  induction s as [|c s IH]; simpl.
  - destruct (match_id_at marker []) eqn:E; [|discriminate].
    intros H. injection H as ->. apply match_id_at_Some in E as [[post E] V].
    split; [|exact V]. now exists [], post.
  - destruct (match_id_at marker (c :: s)) eqn:E.
    + intros H. injection H as ->.
      apply match_id_at_Some in E as [[post E] V].
      split; [|exact V]. now exists [], post.
    + intros H. destruct (IH H) as [(pre & post & ->) V].
      split; [|exact V]. now exists (c :: pre), post.
Qed.

Lemma re_search_id_found (marker pre id post : str) :
  valid_id id -> re_search_id marker (pre ++ marker ++ id ++ post) <> None.
Proof.
  intros V. induction pre as [|c pre IH].
  - assert (E : match_id_at marker ([] ++ marker ++ id ++ post) = Some id).
    { apply match_id_at_Some. split; [now exists post | exact V]. }
    simpl app in *. destruct (marker ++ id ++ post); simpl; now rewrite E.
  - simpl. destruct (match_id_at marker (c :: pre ++ marker ++ id ++ post));
      [discriminate | exact IH].
Qed.

Lemma re_search_id_None (marker s : str) :
  re_search_id marker s = None <-> ~ has_id_after marker s.
Proof.
  split.
  - intros H (pre & id & post & -> & V).
    exact (re_search_id_found marker pre id post V H).
  - intros H. destruct (re_search_id marker s) as [id|] eqn:E; [|reflexivity].
    exfalso. apply H. apply re_search_id_Some in E as [(pre & post & E) V].
    now exists pre, id, post.
Qed.

Lemma first_id_Some (markers : list str) (url id : str) :
  first_id markers url = Some id ->
  valid_id id
  /\ exists marker pre post,
       In marker markers /\ url = pre ++ marker ++ id ++ post.
Proof.
  induction markers as [|m markers IH]; simpl; [discriminate|].
  destruct (re_search_id m url) as [x|] eqn:E.
  - intros H. injection H as ->.
    apply re_search_id_Some in E as [(pre & post & E) V].
    split; [exact V|]. exists m, pre, post. split; [now left | exact E].
  - intros H. destruct (IH H) as [V (marker & pre & post & Hin & Hu)].
    split; [exact V|]. exists marker, pre, post. split; [now right | exact Hu].
Qed.

Lemma first_id_None (markers : list str) (url : str) :
  first_id markers url = None <->
  forall marker, In marker markers -> ~ has_id_after marker url.
Proof.
  induction markers as [|m markers IH]; simpl.
  - split; [intros _ ? [] | reflexivity].
  - destruct (re_search_id m url) as [x|] eqn:E.
    + split; [discriminate|]. intros H. exfalso.
      assert (N : re_search_id m url = None).
      { apply re_search_id_None, H. now left. }
      congruence.
    + rewrite IH. apply re_search_id_None in E. split.
      * intros H marker [<-|Hin]; [exact E | now apply H].
      * intros H marker Hin. apply H. now right.
Qed.

(** X3: an id returned by [get_video_id] has exactly 11 code points, all of
    [[A-Za-z0-9_-]], and stands in the trimmed URL directly behind [v=],
    [youtu.be/] or [youtube.com/embed/]. *)
Theorem get_video_id_sound (url id : str) :
  get_video_id url = Returns id ->
  length id = 11
  /\ forallb is_id_char id = true
  /\ exists marker pre post,
       In marker id_markers /\ strip url = pre ++ marker ++ id ++ post.
Proof.
  unfold get_video_id.
  destruct (first_id id_markers (strip url)) as [x|] eqn:E; [|discriminate].
  intros H. injection H as ->.
  apply first_id_Some in E as [[Hl Hc] Hex]. auto.
Qed.

(** X4: [get_video_id] raises [ValueError] exactly when none of the three
    markers is followed, anywhere in the trimmed URL, by 11 code points of
    [[A-Za-z0-9_-]]; the empty URL is such a case. *)
Theorem get_video_id_fails_iff (url : str) :
  ((exists msg, get_video_id url = ValueError msg) <->
   forall marker, In marker id_markers -> ~ has_id_after marker (strip url))
  /\ (exists msg, get_video_id [] = ValueError msg).
Proof.
  split; [|now eexists].
  unfold get_video_id. rewrite <- first_id_None.
  destruct (first_id id_markers (strip url)); split.
  - intros [msg H]. discriminate.
  - discriminate.
  - reflexivity.
  - intros _. now eexists.
Qed.

Lemma mismatch_starts_with (p t x : str) :
  mismatch p t = true -> starts_with p (t ++ x) = None.
Proof.
  revert t; induction p as [|c p IH]; intros [|d t]; simpl; try discriminate.
  destruct (N.eqb c d); simpl; [apply IH | reflexivity].
Qed.

Lemma re_search_id_past (marker pre s : str) :
  clear_of marker pre = true ->
  re_search_id marker (pre ++ s) = re_search_id marker s.
Proof.
  induction pre as [|c pre IH]; simpl; [reflexivity|]. intros H.
  apply andb_true_iff in H as [Hm Hc].
  unfold match_id_at.
  change (c :: pre ++ s) with ((c :: pre) ++ s).
  rewrite (mismatch_starts_with marker (c :: pre) s Hm). now apply IH.
Qed.

Lemma re_search_id_here (marker id post : str) :
  valid_id id -> re_search_id marker (marker ++ id ++ post) = Some id.
Proof.
  intros V.
  assert (E : match_id_at marker (marker ++ id ++ post) = Some id).
  { apply match_id_at_Some. split; [now exists post | exact V]. }
  destruct (marker ++ id ++ post); simpl; now rewrite E.
Qed.

Lemma re_search_id_absent (marker s : str) (x : char) :
  In x marker -> Forall (fun c => c <> x) s -> re_search_id marker s = None.
Proof.
  intros Hx Hs. apply re_search_id_None.
  intros (pre & id & post & -> & _).
  rewrite Forall_forall in Hs. apply (Hs x); [|reflexivity].
  apply in_or_app. right. apply in_or_app. now left.
Qed.

Lemma id_char_plain (c : char) :
  is_id_char c = true ->
  c <> equals_sign /\ c <> slash /\ isspace c = false.
Proof.
  intros H. unfold is_id_char in H.
  assert (R : (0x41 <= c <= 0x5A \/ 0x61 <= c <= 0x7A \/ 0x30 <= c <= 0x39
               \/ c = 0x5F \/ c = 0x2D)%N).
  { char_arith; lia. }
  unfold equals_sign, slash. repeat split; try lia.
  unfold isspace, in_range.
  repeat (apply orb_false_iff; split);
    try apply andb_false_iff; rewrite ?N.leb_gt, ?N.eqb_neq; lia.
Qed.

(** *** Trimming *)

Lemma lstrip_app (p : char -> bool) (u v : str) :
  lstrip p (u ++ v) = if forallb p u then lstrip p v else lstrip p u ++ v.
Proof.
  induction u as [|c u IH]; simpl; [reflexivity|].
  destruct (p c); [exact IH | reflexivity].
Qed.

Lemma lstrip_all (p : char -> bool) (u : str) :
  forallb p u = true -> lstrip p u = [].
Proof.
  induction u as [|c u IH]; simpl; [reflexivity|].
  destruct (p c); [exact IH | discriminate].
Qed.

Lemma rstrip_app_padding (p : char -> bool) (y ws : str) :
  forallb p ws = true -> rstrip p (y ++ ws) = rstrip p y.
Proof.
  intros H. unfold rstrip. rewrite rev_app_distr, lstrip_app.
  replace (forallb p (rev ws)) with true; [reflexivity|].
  symmetry. rewrite forallb_forall in *. intros c Hc. apply H.
  now apply in_rev.
Qed.

Lemma rstrip_after (p : char -> bool) (a b : str) (c : char) :
  p c = false -> rstrip p ((a ++ [c]) ++ b) = (a ++ [c]) ++ rstrip p b.
Proof.
  intros H. unfold rstrip.
  rewrite !rev_app_distr, lstrip_app. simpl rev. simpl app.
  destruct (forallb p (rev b)) eqn:E.
  - rewrite (lstrip_all p _ E). simpl. rewrite H. simpl.
    now rewrite rev_involutive, app_nil_r.
  - rewrite rev_app_distr. simpl. now rewrite rev_involutive.
Qed.

(** Whitespace around a text does not change what [strip] returns. *)
Lemma strip_padding (ws1 s ws2 : str) :
  forallb isspace ws1 = true -> forallb isspace ws2 = true ->
  strip (ws1 ++ s ++ ws2) = strip s.
Proof.
  intros H1 H2. unfold strip, strip_chars.
  rewrite lstrip_app, H1, lstrip_app.
  destruct (forallb isspace s) eqn:E.
  - now rewrite (lstrip_all _ _ H2), (lstrip_all _ _ E).
  - now apply rstrip_app_padding.
Qed.

(** X6: whitespace before and after the URL changes nothing to what
    [get_video_id] returns or raises. *)
Theorem get_video_id_padding (ws1 url ws2 : str) :
  forallb isspace ws1 = true -> forallb isspace ws2 = true ->
  get_video_id (ws1 ++ url ++ ws2) = get_video_id url.
Proof.
  intros H1 H2. unfold get_video_id. now rewrite strip_padding.
Qed.

Lemma strip_between (a b : str) (c0 c : char) :
  isspace c0 = false -> isspace c = false ->
  strip ((c0 :: a ++ [c]) ++ b) = (c0 :: a ++ [c]) ++ rstrip isspace b.
Proof.
  intros H0 H. unfold strip, strip_chars. simpl lstrip. rewrite H0.
  change (c0 :: (a ++ [c]) ++ b) with (((c0 :: a) ++ [c]) ++ b).
  now rewrite rstrip_after.
Qed.

Lemma valid_id_last (id : str) :
  valid_id id -> exists id' c, id = id' ++ [c] /\ isspace c = false.
Proof.
  intros [Hl Hc].
  assert (Hne : id <> []) by (intros ->; discriminate).
  destruct (exists_last Hne) as (id' & c & ->).
  exists id', c. split; [reflexivity|].
  rewrite forallb_app in Hc. apply andb_true_iff in Hc as [_ Hc].
  simpl in Hc. rewrite andb_true_r in Hc. now apply id_char_plain.
Qed.

(** The trimmed form of a URL that starts with [c0 :: P] and goes on with
    an id. *)
Lemma strip_url (c0 : char) (P id rest : str) :
  isspace c0 = false -> valid_id id ->
  strip ((c0 :: P) ++ id ++ rest) = (c0 :: P) ++ id ++ rstrip isspace rest.
Proof.
  intros H0 V. destruct (valid_id_last id V) as (id' & c & -> & Hc).
  replace ((c0 :: P) ++ (id' ++ [c]) ++ rest)
    with ((c0 :: (P ++ id') ++ [c]) ++ rest)
    by (simpl; now rewrite <- !app_assoc).
  rewrite (strip_between _ _ _ _ H0 Hc). simpl. now rewrite <- !app_assoc.
Qed.

Lemma rstrip_Forall (P : char -> Prop) (p : char -> bool) (s : str) :
  Forall P s -> Forall P (rstrip p s).
Proof. intros H. unfold rstrip. now apply Forall_rev, lstrip_Forall, Forall_rev. Qed.

Lemma id_then_rest_without (x : char) (id rest : str) :
  (forall c, is_id_char c = true -> c <> x) ->
  valid_id id -> Forall (fun c => c <> x) rest ->
  Forall (fun c => c <> x) (id ++ rest).
Proof.
  intros Hx [_ Hc] Hr. apply Forall_app. split; [|exact Hr].
  apply Forall_forall. intros c Hin. apply Hx.
  rewrite forallb_forall in Hc. now apply Hc.
Qed.

(** X5: for every id of 11 code points of [[A-Za-z0-9_-]],
    [get_video_id] returns the id from a watch URL whatever follows the id,
    from a [youtu.be] URL when no [=] follows, and from an embed URL when
    neither [=] nor [/] follows. *)
Theorem get_video_id_of_url (id rest : str) :
  valid_id id ->
  get_video_id (lit "https://www.youtube.com/watch?v=" ++ id ++ rest)
  = Returns id
  /\ (Forall (fun c => c <> equals_sign) rest ->
      get_video_id (lit "https://youtu.be/" ++ id ++ rest) = Returns id)
  /\ (Forall (fun c => c <> equals_sign /\ c <> slash) rest ->
      get_video_id (lit "https://www.youtube.com/embed/" ++ id ++ rest)
      = Returns id).
Proof.
  intros V.
  assert (Heq : forall c, is_id_char c = true -> c <> equals_sign)
    by (intros c H; now apply id_char_plain).
  assert (Hsl : forall c, is_id_char c = true -> c <> slash)
    by (intros c H; now apply id_char_plain).
  split; [|split].
  - unfold get_video_id.
    change (lit "https://www.youtube.com/watch?v=")
      with (0x68%N :: lit "ttps://www.youtube.com/watch?v=").
    rewrite strip_url by (reflexivity || assumption).
    change (0x68%N :: lit "ttps://www.youtube.com/watch?v=")
      with (lit "https://www.youtube.com/watch?" ++ lit "v=").
    rewrite <- app_assoc. cbn [id_markers first_id].
    rewrite re_search_id_past by reflexivity.
    now rewrite re_search_id_here.
  - intros Hr. unfold get_video_id.
    change (lit "https://youtu.be/") with (0x68%N :: lit "ttps://youtu.be/").
    rewrite strip_url by (reflexivity || assumption).
    change (0x68%N :: lit "ttps://youtu.be/") with (lit "https://youtu.be/").
    cbn [id_markers first_id].
    rewrite re_search_id_past by reflexivity.
    rewrite (re_search_id_absent (lit "v=") _ equals_sign);
      [|right; now left
       |apply id_then_rest_without; auto; now apply rstrip_Forall].
    change (lit "https://youtu.be/") with (lit "https://" ++ lit "youtu.be/").
    rewrite <- app_assoc, re_search_id_past by reflexivity.
    now rewrite re_search_id_here.
  - intros Hr. unfold get_video_id.
    assert (Hr1 : Forall (fun c => c <> equals_sign) rest)
      by (revert Hr; apply Forall_impl; tauto).
    assert (Hr2 : Forall (fun c => c <> slash) rest)
      by (revert Hr; apply Forall_impl; tauto).
    change (lit "https://www.youtube.com/embed/")
      with (0x68%N :: lit "ttps://www.youtube.com/embed/").
    rewrite strip_url by (reflexivity || assumption).
    change (0x68%N :: lit "ttps://www.youtube.com/embed/")
      with (lit "https://www.youtube.com/embed/").
    cbn [id_markers first_id].
    rewrite re_search_id_past by reflexivity.
    rewrite (re_search_id_absent (lit "v=") _ equals_sign);
      [|right; now left
       |apply id_then_rest_without; auto; now apply rstrip_Forall].
    rewrite re_search_id_past by reflexivity.
    rewrite (re_search_id_absent (lit "youtu.be/") _ slash);
      [|do 8 right; now left
       |apply id_then_rest_without; auto; now apply rstrip_Forall].
    change (lit "https://www.youtube.com/embed/")
      with (lit "https://www." ++ lit "youtube.com/embed/").
    rewrite <- app_assoc, re_search_id_past by reflexivity.
    now rewrite re_search_id_here.
Qed.

(** ** Transcript text *)

Lemma split_join_by (c : char) (l : list str) :
  isspace c = true -> split (join [c] l) = concat (map split l).
Proof.
  intros Hc. induction l as [|p [|q l] IH]; simpl.
  - reflexivity.
  - now rewrite app_nil_r.
  - unfold split at 1. rewrite split_from_app_space by exact Hc.
    f_equal. apply IH.
Qed.

Lemma sanitize_join_by (c : char) (l : list str) :
  isspace c = true -> sanitize (join [c] l) = join [c] (map sanitize l).
Proof.
  intros Hc. induction l as [|p [|q l] IH]; simpl; try reflexivity.
  rewrite sanitize_app. simpl in IH |- *.
  now rewrite (sanitize_char_space c Hc), IH.
Qed.

Lemma clean_tokens_join_by (U : unicode_tables) (c : char) (l : list str) :
  isspace c = true ->
  clean_tokens U (join [c] l) = concat (map (clean_tokens U) l).
Proof.
  intros Hc. unfold clean_tokens.
  rewrite (sanitize_join_by c l Hc), (split_join_by c _ Hc), filter_map_concat.
  now rewrite !map_map.
Qed.

Lemma segment_texts_concat (A : Type) (f : str -> list A) (data : list segment) :
  f [] = [] ->
  concat (map f (segment_texts data))
  = concat (map (fun seg => f (text_or_empty seg)) data).
Proof.
  intros Hf. induction data as [|[[[|c t]|]] data IH]; simpl;
    unfold text_or_empty; simpl; rewrite ?Hf; simpl; now rewrite ?IH.
Qed.

(** X7: the plain text of a transcript has the words and the tokens of its
    segments, segment after segment: the newline that joins two segments
    separates their words, and a segment without text or with an empty
    text, which is left out, had none. *)
Theorem fetched_to_plain_text_tokens (U : unicode_tables) (data : list segment) :
  split (fetched_to_plain_text data)
  = concat (map (fun seg => split (text_or_empty seg)) data)
  /\ clean_tokens U (fetched_to_plain_text data)
     = concat (map (fun seg => clean_tokens U (text_or_empty seg)) data).
Proof.
  unfold fetched_to_plain_text. split.
  - rewrite split_join_by by reflexivity.
    now apply segment_texts_concat.
  - rewrite clean_tokens_join_by by reflexivity.
    now apply (segment_texts_concat _ (clean_tokens U)).
Qed.

(** ** The shape of a token *)

Lemma sanitized_piece_chars (text : str) (c : char) :
  In c (sanitize text) -> isspace c = false -> piece_char c = true.
Proof.
  unfold sanitize. rewrite in_map_iff. intros (d & <- & _).
  unfold sanitize_char. destruct (in_token_class d) eqn:E; [|discriminate].
  intros Hs. unfold in_token_class in E. unfold piece_char.
  rewrite Hs in E. now rewrite orb_false_r in E.
Qed.

Lemma split_sanitize_pieces (text : str) :
  Forall (Forall (fun c => piece_char c = true)) (split (sanitize text)).
Proof.
  rewrite split_filter_runs. apply Forall_forall. intros w Hw.
  apply filter_In in Hw as [Hw _]. revert w Hw. apply Forall_forall.
  apply split_on_runs_chars, sanitized_piece_chars.
Qed.

Lemma piece_char_ascii (c : char) : piece_char c = true -> is_ascii c = true.
Proof.
  intros H. unfold piece_char in H. unfold is_ascii. apply N.ltb_lt.
  char_arith; lia.
Qed.

Lemma ascii_lower_token_char (c : char) :
  piece_char c = true -> token_char (ascii_lower c) = true.
Proof.
  intros H. unfold ascii_lower. destruct (is_upper c) eqn:E.
  - unfold token_char. replace (is_lower (c + 0x20)%N) with true; [reflexivity|].
    symmetry. unfold is_lower, in_range. apply andb_true_iff.
    rewrite !N.leb_le. char_arith; lia.
  - unfold piece_char in H. unfold token_char. now rewrite E in H.
Qed.

Lemma token_char_fixed (c : char) :
  token_char c = true ->
  sanitize_char c = c /\ ascii_lower c = c /\ isspace c = false
  /\ is_ascii c = true.
Proof.
  intros H. unfold token_char in H.
  assert (R : (0x61 <= c <= 0x7A \/ 0x30 <= c <= 0x39 \/ c = 0x27)%N).
  { char_arith; lia. }
  assert (Hu : is_upper c = false).
  { unfold is_upper, in_range. apply andb_false_iff.
    rewrite !N.leb_gt. lia. }
  assert (Hs : isspace c = false).
  { unfold isspace, in_range.
    repeat (apply orb_false_iff; split);
      try apply andb_false_iff; rewrite ?N.leb_gt, ?N.eqb_neq; lia. }
  repeat split; try assumption.
  - unfold sanitize_char, in_token_class. rewrite Hu, Hs. simpl.
    destruct (is_lower c), (is_ascii_digit c), (is_apostrophe c);
      (reflexivity || discriminate).
  - unfold ascii_lower. now rewrite Hu.
  - unfold is_ascii. apply N.ltb_lt. lia.
Qed.

Lemma lstrip_decompose_by (p : char -> bool) (s : str) :
  exists w, s = w ++ lstrip p s.
Proof.
  induction s as [|c s [w E]]; simpl; [now exists []|].
  destruct (p c); [|now exists []].
  exists (c :: w). simpl. now f_equal.
Qed.

Lemma lstrip_head (p : char -> bool) (s : str) (d : char) :
  lstrip p s <> [] -> p (hd d (lstrip p s)) = false.
Proof.
  induction s as [|c s IH]; simpl; [congruence|].
  destruct (p c) eqn:E; [exact IH | now intros _].
Qed.

Lemma lstrip_fixed (p : char -> bool) (s : str) (d : char) :
  p (hd d s) = false -> lstrip p s = s.
Proof. destruct s as [|c s]; simpl; [reflexivity | now intros ->]. Qed.

Lemma last_rev (s : str) (d : char) : last (rev s) d = hd d s.
Proof. destruct s as [|c s]; simpl; [reflexivity | apply last_last]. Qed.

Lemma hd_rev (s : str) (d : char) : hd d (rev s) = last s d.
Proof. rewrite <- (rev_involutive s) at 2. symmetry. apply last_rev. Qed.

(** What [strip] leaves has none of the stripped code points at either
    end. *)
Lemma strip_chars_edges (p : char -> bool) (s : str) (d : char) :
  strip_chars p s <> [] ->
  p (hd d (strip_chars p s)) = false /\ p (last (strip_chars p s) d) = false.
Proof.
  unfold strip_chars, rstrip. intros H.
  set (x := lstrip p s) in *. set (y := lstrip p (rev x)) in *.
  assert (Hy : y <> []) by (intros E; apply H; now rewrite E).
  split.
  - destruct (lstrip_decompose_by p (rev x)) as [w E]. fold y in E.
    assert (Ex : x = rev y ++ rev w).
    { rewrite <- rev_app_distr, <- E. now rewrite rev_involutive. }
    assert (Hx : x <> []).
    { intros N. rewrite N in Ex. symmetry in Ex.
      apply app_eq_nil in Ex as [Ex _]. now apply H. }
    pose proof (lstrip_head p s d Hx) as Hh. fold x in Hh.
    rewrite Ex in Hh. destruct (rev y); [contradiction | exact Hh].
  - rewrite last_rev. now apply lstrip_head.
Qed.

Lemma strip_chars_fixed (p : char -> bool) (s : str) (d : char) :
  p (hd d s) = false -> p (last s d) = false -> strip_chars p s = s.
Proof.
  intros Hh Hl. unfold strip_chars, rstrip.
  rewrite (lstrip_fixed p s d Hh), (lstrip_fixed p (rev s) d).
  - apply rev_involutive.
  - now rewrite hd_rev.
Qed.

Lemma split_on_runs_word (t : str) :
  Forall (fun c => isspace c = false) t -> split_on_runs false t = [t].
Proof.
  induction 1 as [|c t Hc Ht IH]; simpl; [reflexivity|].
  now rewrite Hc, IH.
Qed.

Section TokenShape.

Variable U : unicode_tables.

(** X8: every token is in normal form: not empty, made of lowercase
    letters, digits and apostrophes only, with no apostrophe at either
    end. *)
Theorem clean_tokens_shaped (text : str) :
  Forall token_shaped (clean_tokens U text).
Proof.
  unfold clean_tokens. apply Forall_forall. intros t Ht.
  apply filter_In in Ht as [Ht Hk].
  apply in_map_iff in Ht as (p & <- & Hp).
  pose proof (split_sanitize_pieces text) as HP.
  rewrite Forall_forall in HP. specialize (HP p Hp).
  assert (Hne : normalize U p <> []).
  { intros E. rewrite E in Hk. discriminate. }
  assert (Ha : ascii_str p).
  { revert HP. apply Forall_impl. apply piece_char_ascii. }
  split; [exact Hne|]. split.
  - apply forallb_forall. apply Forall_forall.
    unfold normalize. apply strip_chars_Forall.
    rewrite (lower_ascii U p Ha), Forall_map.
    revert HP. apply Forall_impl. apply ascii_lower_token_char.
  - now apply strip_chars_edges.
Qed.

Lemma token_shaped_alone (t : str) :
  token_shaped t -> keep_token U t = true -> clean_tokens U t = [t].
Proof.
  intros (Hne & Hc & Hh & Hl) Hk.
  rewrite forallb_forall in Hc.
  assert (Hs : sanitize t = t).
  { unfold sanitize. rewrite <- (map_id t) at 2. apply map_ext_in.
    intros c Hin. now apply token_char_fixed, Hc. }
  assert (Hw : split t = [t]).
  { rewrite split_filter_runs, split_on_runs_word.
    - simpl. unfold nonempty. destruct t; [contradiction | reflexivity].
    - apply Forall_forall. intros c Hin. now apply token_char_fixed, Hc. }
  assert (Hn : normalize U t = t).
  { unfold normalize. rewrite lower_ascii.
    - replace (map ascii_lower t) with t;
        [now apply strip_chars_fixed with space|].
      rewrite <- (map_id t) at 1. apply map_ext_in.
      intros c Hin. symmetry. now apply token_char_fixed, Hc.
    - apply Forall_forall. intros c Hin. now apply token_char_fixed, Hc. }
  unfold clean_tokens. rewrite Hs, Hw. simpl. now rewrite Hn, Hk.
Qed.

(** X9: tokenizing is idempotent: a token tokenizes to itself, and the
    tokens of a text, joined by spaces, tokenize to the same tokens. *)
Theorem clean_tokens_idempotent (text : str) :
  (forall t, In t (clean_tokens U text) -> clean_tokens U t = [t])
  /\ clean_tokens U (join [space] (clean_tokens U text))
     = clean_tokens U text.
Proof.
  assert (H : forall t, In t (clean_tokens U text) -> clean_tokens U t = [t]).
  { intros t Ht. apply token_shaped_alone.
    - pose proof (clean_tokens_shaped text) as S.
      rewrite Forall_forall in S. now apply S.
    - now apply kept_token with text. }
  split; [exact H|]. rewrite clean_tokens_join.
  induction (clean_tokens U text) as [|t l IH]; [reflexivity|]. simpl.
  rewrite (H t) by now left. simpl. f_equal.
  apply IH. intros x Hx. apply H. now right.
Qed.

End TokenShape.

(** ** The size of the keyword ranking *)

Lemma counter_incr_total (t : str) (c : list (str * nat)) :
  list_sum (map snd (counter_incr t c)) = S (list_sum (map snd c)).
Proof.
  induction c as [|[k v] c IH]; simpl; [reflexivity|].
  destruct (str_eqb k t); simpl; [reflexivity|]. rewrite IH. lia.
Qed.

Lemma Counter_total (l : list str) :
  list_sum (map snd (Counter l)) = length l.
Proof.
  induction l as [|t l IH] using rev_ind; [reflexivity|].
  rewrite Counter_snoc, counter_incr_total, IH, length_app. simpl. lia.
Qed.

Lemma Counter_length (l : list str) :
  length (Counter l) = length (nodup str_eq_dec l).
Proof.
  rewrite <- (length_map fst). apply Permutation_length.
  apply NoDup_Permutation.
  - apply Counter_keys_NoDup.
  - apply NoDup_nodup.
  - intros k. rewrite nodup_In. apply (Counter_keys l).
Qed.

Lemma list_sum_perm (l l' : list nat) :
  Permutation l l' -> list_sum l = list_sum l'.
Proof. induction 1; simpl; lia. Qed.

Lemma NoDup_firstn_of (A : Type) (n : nat) (l : list A) :
  NoDup l -> NoDup (firstn n l).
Proof.
  intros H. rewrite <- (firstn_skipn n l) in H.
  now apply NoDup_app_remove_r in H.
Qed.

(** X10: [keyword_top_n(text, n)] has exactly as many pairs as there are
    distinct tokens, up to [n] of them (none for a negative [n]); no token
    comes twice; every count is at least 1; and when [n] reaches the number
    of distinct tokens the counts add up to the number of tokens. *)
Theorem keyword_top_n_size (U : unicode_tables) (text : str) (n : Z) :
  let toks := clean_tokens U text in
  let top := keyword_top_n U text n in
  let distinct := length (nodup str_eq_dec toks) in
  length top = Nat.min (Z.to_nat n) distinct
  /\ NoDup (map fst top)
  /\ (forall t c, In (t, c) top -> In t toks /\ 1 <= c)
  /\ (distinct <= Z.to_nat n -> list_sum (map snd top) = length toks).
Proof.
  intros toks top distinct.
  pose proof (sort_desc_perm _ _ Nat.ltb (@snd str nat) (Counter toks)) as P.
  assert (E : top = firstn (Z.to_nat n)
                      (sort_desc Nat.ltb (@snd str nat) (Counter toks))).
  { unfold top, keyword_top_n, most_common. fold toks.
    destruct (n <? 0)%Z eqn:En; [|reflexivity].
    apply Z.ltb_lt in En. now replace (Z.to_nat n) with 0 by lia. }
  assert (L : length (sort_desc Nat.ltb (@snd str nat) (Counter toks))
              = distinct).
  { rewrite (Permutation_length P). apply Counter_length. }
  split; [|split; [|split]].
  - now rewrite E, length_firstn, L.
  - rewrite E, <- firstn_map. apply NoDup_firstn_of.
    apply Permutation_NoDup with (map fst (Counter toks));
      [symmetry; now apply Permutation_map | apply Counter_keys_NoDup].
  - intros t c H. unfold top, keyword_top_n in H. fold toks in H.
    apply most_common_In, Counter_items in H as [-> Hin].
    split; [exact Hin|]. unfold occurrences. now apply count_occ_In.
  - intros H. rewrite E, firstn_all2 by lia.
    rewrite (list_sum_perm _ (map snd (Counter toks)))
      by now apply Permutation_map.
    apply Counter_total.
Qed.

(** ** What the summary is made of *)

Section SummaryFacts.

Variable U : unicode_tables.
Variable F : float_ops.

Lemma slice_to_In (T : Type) (k : Z) (l : list T) (x : T) :
  In x (slice_to k l) -> In x l.
Proof. unfold slice_to. destruct (k <? 0)%Z; apply In_firstn. Qed.

(** X11: the summary is extractive.  Every bullet is the marker followed by
    a sentence of the text, unmodified; and when some ranked sentence
    passes the length filter, the sentence of every bullet has a length
    within the bounds and at least one token. *)
Theorem extract_summary_bullets_extractive (text : str) (k min_len max_len : Z) :
  let bullets := extract_summary_bullets U F text k min_len max_len in
  (forall b, In b bullets ->
     exists s, b = add_bullet s /\ In s (split_sentences text))
  /\ (Exists (fun p => length_ok min_len max_len (fst p))
        (score_sentences U F (split_sentences text)) ->
      forall b, In b bullets ->
        length_ok min_len max_len (bullet_sentence b)
        /\ clean_tokens U (bullet_sentence b) <> []).
Proof.
  intros bullets.
  destruct (select_loop_accepts U F k min_len max_len
              (score_sentences U F (split_sentences text)) [] [])
    as (acc & E & _ & Hacc & _).
  { intros x. reflexivity. }
  { constructor. }
  simpl in E.
  assert (Hs : forall s, In s acc ->
            In s (split_sentences text) /\ length_ok min_len max_len s
            /\ clean_tokens U s <> []).
  { intros s Hin. destruct (Hacc s Hin) as [Hr Hok].
    apply in_map_iff in Hr as ([s' sc] & <- & Hr).
    apply score_sentences_In in Hr as (H1 & H2 & _). auto. }
  destruct acc as [|a acc].
  - simpl in E. unfold bullets. rewrite (extract_walk_empty _ _ _ _ _ _ E).
    split.
    + intros b Hb. apply in_map_iff in Hb as (s & <- & Hin).
      exists s. split; [reflexivity | now apply slice_to_In in Hin].
    + intros Hex. exfalso. apply select_loop_nil_iff in E.
      apply Exists_exists in Hex as (p & Hp & Hok).
      rewrite Forall_forall in E. exact (E p Hp Hok).
  - unfold bullets. rewrite extract_walk_accepts, E
      by (rewrite E; discriminate).
    split.
    + intros b Hb. apply in_map_iff in Hb as (s & <- & Hin).
      exists s. split; [reflexivity | now apply Hs].
    + intros _ b Hb. apply in_map_iff in Hb as (s & <- & Hin).
      rewrite bullet_sentence_add_bullet. now apply Hs.
Qed.

Lemma select_loop_first (k min_len max_len : Z)
    (ranked : list (str * float F)) (s : str) (sc : float F) :
  first_in_bounds F min_len max_len ranked = Some (s, sc) ->
  exists more,
    select_loop U F k min_len max_len ranked [] [] = add_bullet s :: more
    /\ ((k <= 1)%Z -> more = []).
Proof.
  unfold first_in_bounds.
  induction ranked as [|[s' sc'] rest IH]; [discriminate|].
  cbn [find fst select_loop existsb app].
  change ((Z.of_nat (length s') <? min_len)%Z
          || (max_len <? Z.of_nat (length s'))%Z)
    with (too_short_or_long min_len max_len s').
  change (Z.of_nat (length [add_bullet s'])) with 1%Z.
  destruct (too_short_or_long min_len max_len s') eqn:E; cbn [negb].
  - exact IH.
  - intros H. injection H as -> ->.
    destruct (k <=? 1)%Z eqn:Ek.
    + exists []. split; reflexivity.
    + apply Z.leb_gt in Ek.
      destruct (select_loop_accepts U F k min_len max_len rest [s]
                  [signature U s]) as (acc & Eacc & _).
      { intros x. reflexivity. }
      { repeat constructor. intros []. }
      simpl in Eacc. rewrite Eacc. exists (map add_bullet acc).
      split; [reflexivity | lia].
Qed.

(** X12: when some ranked sentence passes the length filter, the first
    bullet is made of the best ranked such sentence, whatever [k]; and for
    every [k <= 1], zero and the negative integers included, it is the only
    bullet. *)
Theorem extract_summary_bullets_first (text : str) (k min_len max_len : Z)
    (s : str) (sc : float F) :
  first_in_bounds F min_len max_len
    (score_sentences U F (split_sentences text)) = Some (s, sc) ->
  let bullets := extract_summary_bullets U F text k min_len max_len in
  hd_error bullets = Some (add_bullet s)
  /\ ((k <= 1)%Z -> bullets = [add_bullet s]).
Proof.
  intros H bullets.
  destruct (select_loop_first k min_len max_len _ s sc H) as (more & E & Hk).
  unfold bullets. rewrite extract_walk_accepts, E
    by (rewrite E; discriminate).
  split; [reflexivity|]. intros Hle. now rewrite (Hk Hle).
Qed.

(** X15: the frequencies the scorer weighs the sentences of a text with
    are the keyword counts of the text: a ranked sentence of
    [split_sentences(text)] has the score (sum over its tokens of their
    number of occurrences among [clean_tokens(text)]) /
    (number of its tokens ** 0.8). *)
Theorem score_sentences_uses_keyword_counts (text s : str) (sc : float F) :
  In (s, sc) (score_sentences U F (split_sentences text)) ->
  let toks := clean_tokens U s in
  sc = float_div F
         (float_of_int F
            (list_sum (map (occurrences (clean_tokens U text)) toks)))
         (float_pow F (float_of_int F (length toks)) (float_0_8 F)).
Proof.
  intros H toks. apply score_sentences_In in H as (_ & _ & ->).
  unfold sentence_score. fold toks.
  rewrite clean_tokens_split_sentences.
  rewrite (map_ext (counter_get (Counter (clean_tokens U text)))
             (occurrences (clean_tokens U text))); [reflexivity|].
  intros t. apply counter_get_Counter.
Qed.

End SummaryFacts.

(** ** The shape of a sentence *)

Lemma strip_idempotent (s : str) : strip (strip s) = strip s.
Proof.
  destruct (strip s) eqn:E; [reflexivity|]. rewrite <- E.
  assert (H : strip s <> []) by (rewrite E; discriminate).
  destruct (strip_chars_edges isspace s space H) as [Hh Hl].
  now apply strip_chars_fixed with space.
Qed.

(** X13: a sentence of [split_sentences] is trimmed: it is not empty, it
    neither starts nor ends with whitespace, and trimming it again changes
    nothing. *)
Theorem split_sentences_are_trimmed (text s : str) :
  In s (split_sentences text) ->
  s <> []
  /\ isspace (hd space s) = false
  /\ isspace (last s space) = false
  /\ strip s = s.
Proof.
  intros H. apply split_sentences_In in H as (p & _ & -> & Hp).
  destruct (strip_chars_edges isspace p space Hp) as [Hh Hl].
  repeat split; try assumption. apply strip_idempotent.
Qed.

Lemma ends_with_terminator_cons (c : char) (p : str) :
  p <> [] -> ends_with_terminator p -> ends_with_terminator (c :: p).
Proof. unfold ends_with_terminator. destruct p; [contradiction | trivial]. Qed.

Lemma closed_weaken (a : bool) (l : list str) : closed false l -> closed a l.
Proof.
  destruct l as [|p l]; simpl; [trivial|].
  intros (H1 & H2 & H3). split; [|now split].
  intros E. now apply H1 in E.
Qed.

Lemma closed_false_all (l : list str) :
  closed false l -> Forall ends_with_terminator l.
Proof.
  destruct l as [|p l]; simpl; [constructor|].
  intros (H1 & H2 & H3). constructor; [|exact H3].
  apply H2. intros E. now apply H1 in E.
Qed.

(** Putting a code point in front of the first piece. *)
Lemma closed_cons_head (c : char) (a : bool) (l2 l : list str) (x2 x : str) :
  closed a l2 ->
  (a = true -> is_terminator c = true) ->
  cons_head c (l2 ++ [x2]) = l ++ [x] ->
  closed false l.
Proof.
  intros C Ha E. destruct l2 as [|p l2]; simpl in E.
  - destruct l as [|q [|r l]]; simpl in E; try discriminate. exact I.
  - change ((c :: p) :: l2 ++ [x2]) with (((c :: p) :: l2) ++ [x2]) in E.
    apply app_inj_tail in E as [<- _].
    destruct C as (H1 & H2 & H3). simpl.
    split; [discriminate|]. split; [|exact H3]. intros _.
    destruct p as [|d p].
    + unfold ends_with_terminator. simpl. apply Ha. now apply H1.
    + apply ends_with_terminator_cons; [discriminate|].
      apply H2. discriminate.
Qed.

(** Every piece of the split that a match follows ends with a
    terminator. *)
Lemma re_split_from_closed (text : str) :
  forall g a l x, re_split_from g a text = l ++ [x] -> closed a l.
Proof.
  induction text as [|c text IH]; intros g a l x E.
  - simpl in E. destruct l as [|p [|q l]]; simpl in E; try discriminate.
    exact I.
  - cbn [re_split_from] in E.
    assert (Cons : forall a',
      (a' = true -> is_terminator c = true) ->
      cons_head c (re_split_from false a' text) = l ++ [x] -> closed a l).
    { intros a' Ha' Ec.
      destruct (exists_last (re_split_from_not_nil false a' text))
        as (l2 & x2 & E2).
      rewrite E2 in Ec. apply closed_weaken.
      apply (closed_cons_head c a' l2 l x2 x); [|exact Ha' | exact Ec].
      now apply (IH false a' l2 x2). }
    destruct (isspace c) eqn:Es.
    + destruct g.
      * apply closed_weaken. now apply (IH true false l x).
      * destruct a; [|apply (Cons false); [discriminate | exact E]].
        destruct l as [|p l].
        { simpl in E. injection E as E.
          exfalso. now apply (re_split_from_not_nil true false text). }
        simpl in E. injection E as <- E.
        simpl. split; [reflexivity|]. split; [congruence|].
        apply closed_false_all. now apply (IH true false l x).
    + apply (Cons (is_terminator c)); [trivial | exact E].
Qed.

Lemma rstrip_kept (p : char -> bool) (a : str) (c : char) :
  p c = false -> rstrip p (a ++ [c]) = a ++ [c].
Proof.
  intros H. unfold rstrip. rewrite rev_app_distr. simpl. rewrite H.
  simpl. now rewrite rev_involutive.
Qed.

Lemma terminated_strip (p : str) :
  ends_with_terminator p -> strip p <> [] /\ ends_with_terminator (strip p).
Proof.
  unfold ends_with_terminator. intros H.
  assert (Hne : p <> []) by (intros ->; discriminate).
  destruct (exists_last Hne) as (q & c & ->).
  rewrite last_last in H. pose proof (terminator_not_space c H) as Hs.
  unfold strip, strip_chars.
  destruct (lstrip_decompose (q ++ [c])) as (ws & E & Hws).
  assert (Hl : exists q', lstrip isspace (q ++ [c]) = q' ++ [c]).
  { rewrite lstrip_app. destruct (forallb isspace q).
    - exists []. simpl. now rewrite Hs.
    - exists (lstrip isspace q). reflexivity. }
  destruct Hl as (q' & ->).
  rewrite rstrip_kept by exact Hs.
  split; [now destruct q' | now rewrite last_last].
Qed.

(** X14: every sentence of [split_sentences] but the last one ends with
    [.], [!] or [?]. *)
Theorem split_sentences_terminated (text : str) (l : list str) (x : str) :
  split_sentences text = l ++ [x] -> Forall ends_with_terminator l.
Proof.
  unfold split_sentences, re_split.
  destruct (exists_last (re_split_from_not_nil false false text))
    as (pieces & last_piece & E).
  pose proof (closed_false_all _
                (re_split_from_closed text false false pieces last_piece E))
    as C.
  rewrite E, filter_app, map_app.
  assert (K : map strip (filter (fun p => negb (is_empty (strip p))) pieces)
              = map strip pieces
              /\ Forall ends_with_terminator (map strip pieces)).
  { clear E. induction C as [|p ps Hp Hps [IH1 IH2]]; [now split|].
    destruct (terminated_strip p Hp) as [Hne He]. cbn [filter map].
    destruct (strip p) eqn:Ep; [contradiction|]. cbn [is_empty negb map].
    rewrite Ep, IH1. split; [reflexivity | now constructor]. }
  destruct K as [-> K]. cbn [filter].
  destruct (negb (is_empty (strip last_piece))); cbn [map]; intros H.
  - apply app_inj_tail in H as [<- _]. exact K.
  - rewrite app_nil_r in H. rewrite H in K.
    apply Forall_app in K. tauto.
Qed.

(** ** The further properties on concrete inputs *)

Lemma get_video_id_sound_example :
  get_video_id watch_url = Returns video_id
  /\ length video_id = 11
  /\ forallb is_id_char video_id = true
  /\ exists marker pre post,
       In marker id_markers
       /\ strip watch_url = pre ++ marker ++ video_id ++ post.
Proof.
  assert (H : get_video_id watch_url = Returns video_id) by reflexivity.
  split; [exact H|]. exact (get_video_id_sound watch_url video_id H).
Defined.

Lemma get_video_id_of_url_example :
  valid_id video_id
  /\ get_video_id (lit "https://www.youtube.com/watch?v=" ++ video_id
                   ++ lit "&t=3") = Returns video_id
  /\ Forall (fun c => c <> equals_sign /\ c <> slash) (lit "?x")
  /\ get_video_id (lit "https://youtu.be/" ++ video_id ++ lit "?x")
     = Returns video_id
  /\ get_video_id (lit "https://www.youtube.com/embed/" ++ video_id
                   ++ lit "?x") = Returns video_id.
Proof.
  assert (V : valid_id video_id) by (split; reflexivity).
  assert (R : Forall (fun c => c <> equals_sign /\ c <> slash) (lit "?x"))
    by (repeat constructor; discriminate).
  assert (R1 : Forall (fun c => c <> equals_sign) (lit "?x"))
    by (repeat constructor; discriminate).
  split; [exact V|].
  split; [exact (proj1 (get_video_id_of_url video_id (lit "&t=3") V))|].
  split; [exact R|].
  destruct (get_video_id_of_url video_id (lit "?x") V) as (_ & H2 & H3).
  split; [exact (H2 R1) | exact (H3 R)].
Defined.

Lemma get_video_id_padding_example :
  forallb isspace (lit "  ") = true
  /\ forallb isspace [newline] = true
  /\ get_video_id (lit "  " ++ lit "https://youtu.be/dQw4w9WgXcQ" ++ [newline])
     = get_video_id (lit "https://youtu.be/dQw4w9WgXcQ").
Proof.
  assert (H1 : forallb isspace (lit "  ") = true) by reflexivity.
  assert (H2 : forallb isspace [newline] = true) by reflexivity.
  split; [exact H1|]. split; [exact H2|].
  exact (get_video_id_padding (lit "  ") (lit "https://youtu.be/dQw4w9WgXcQ")
           [newline] H1 H2).
Defined.

Lemma clean_tokens_idempotent_example :
  In (lit "a1") (clean_tokens ascii_tables keywords_text)
  /\ clean_tokens ascii_tables (lit "a1") = [lit "a1"].
Proof.
  assert (H : In (lit "a1") (clean_tokens ascii_tables keywords_text))
    by (vm_compute; right; left; reflexivity).
  split; [exact H|].
  exact (proj1 (clean_tokens_idempotent ascii_tables keywords_text)
           (lit "a1") H).
Defined.

Lemma keyword_top_n_size_example :
  length (nodup str_eq_dec (clean_tokens ascii_tables keywords_text))
  <= Z.to_nat 10
  /\ list_sum (map snd (keyword_top_n ascii_tables keywords_text 10))
     = length (clean_tokens ascii_tables keywords_text).
Proof.
  assert (H : length (nodup str_eq_dec
                        (clean_tokens ascii_tables keywords_text))
              <= Z.to_nat 10) by (vm_compute; lia).
  split; [exact H|].
  exact (proj2 (proj2 (proj2
    (keyword_top_n_size ascii_tables keywords_text 10))) H).
Defined.

Lemma fox_ranking_in_bounds :
  Exists (fun p => length_ok 40 220 (fst p))
    (score_sentences ascii_tables rational_floats (split_sentences fox_text)).
Proof.
  apply Exists_exists. exists (fox_sentence, Qmake 17 7). split.
  - vm_compute. left. reflexivity.
  - unfold length_ok. simpl. lia.
Defined.

Lemma extract_summary_bullets_extractive_example :
  Exists (fun p => length_ok 40 220 (fst p))
    (score_sentences ascii_tables rational_floats (split_sentences fox_text))
  /\ forall b,
       In b (extract_summary_bullets ascii_tables rational_floats
               fox_text 2 40 220) ->
       length_ok 40 220 (bullet_sentence b)
       /\ clean_tokens ascii_tables (bullet_sentence b) <> [].
Proof.
  split; [exact fox_ranking_in_bounds|].
  exact (proj2 (extract_summary_bullets_extractive ascii_tables
                  rational_floats fox_text 2 40 220) fox_ranking_in_bounds).
Defined.

Lemma extract_summary_bullets_first_example :
  first_in_bounds rational_floats 40 220
    (score_sentences ascii_tables rational_floats (split_sentences fox_text))
  = Some (fox_sentence, Qmake 17 7)
  /\ (0 <= 1)%Z
  /\ extract_summary_bullets ascii_tables rational_floats fox_text 0 40 220
     = [add_bullet fox_sentence].
Proof.
  assert (H : first_in_bounds rational_floats 40 220
                (score_sentences ascii_tables rational_floats
                   (split_sentences fox_text))
              = Some (fox_sentence, Qmake 17 7)) by reflexivity.
  assert (Hk : (0 <= 1)%Z) by lia.
  split; [exact H|]. split; [exact Hk|].
  exact (proj2 (extract_summary_bullets_first ascii_tables rational_floats
                  fox_text 0 40 220 fox_sentence (Qmake 17 7) H) Hk).
Defined.

Lemma split_sentences_are_trimmed_example :
  In (lit "Hi.") (split_sentences greeting_text)
  /\ strip (lit "Hi.") = lit "Hi.".
Proof.
  assert (H : In (lit "Hi.") (split_sentences greeting_text))
    by (vm_compute; left; reflexivity).
  split; [exact H|].
  exact (proj2 (proj2 (proj2
    (split_sentences_are_trimmed greeting_text (lit "Hi.") H)))).
Defined.

Lemma split_sentences_terminated_example :
  split_sentences greeting_text = [lit "Hi."; lit "There!"] ++ [lit "yes"]
  /\ Forall ends_with_terminator [lit "Hi."; lit "There!"].
Proof.
  assert (H : split_sentences greeting_text
              = [lit "Hi."; lit "There!"] ++ [lit "yes"]) by reflexivity.
  split; [exact H|].
  exact (split_sentences_terminated greeting_text
           [lit "Hi."; lit "There!"] (lit "yes") H).
Defined.

Lemma score_sentences_uses_keyword_counts_example :
  In (fox_sentence, Qmake 17 7)
    (score_sentences ascii_tables rational_floats (split_sentences fox_text))
  /\ Qmake 17 7
     = float_div rational_floats
         (float_of_int rational_floats
            (list_sum (map (occurrences (clean_tokens ascii_tables fox_text))
                         (clean_tokens ascii_tables fox_sentence))))
         (float_pow rational_floats
            (float_of_int rational_floats
               (length (clean_tokens ascii_tables fox_sentence)))
            (float_0_8 rational_floats)).
Proof.
  assert (H : In (fox_sentence, Qmake 17 7)
                (score_sentences ascii_tables rational_floats
                   (split_sentences fox_text)))
    by (vm_compute; left; reflexivity).
  split; [exact H|].
  exact (score_sentences_uses_keyword_counts ascii_tables rational_floats
           fox_text fox_sentence (Qmake 17 7) H).
Defined.
